(** * Catalyst: inventory loader and remote executor

    A shallow embedding of [catalyst/core/inventory.py] and
    [catalyst/core/executor.py].

    Python objects that the code mutates in place and that may be reached
    through more than one name (the [groups] lists of the parsed YAML
    document, which [Host] stores without copying) live in an explicit store
    of list objects addressed by reference.  Everything an outside library
    does (the YAML parser, the SSH transport, the logging sink) is either an
    input of the model or an entry of an output trace. *)

From Stdlib Require Import ZArith.
From stdpp Require Import gmap strings list.

(** ** Exceptions, log records and the store-passing monad *)

(** The exceptions the two modules can see.  [InventoryError] and
    [ExecutionError] are the classes the repository defines; their message
    is an f-string around [str(e)] of the exception they wrap, kept here in
    structured form. *)
Inductive exn :=
| KeyError (key : string)
| OSError (text : string)
| UnicodeDecodeError
| SSHException (text : string)
| AttributeError (text : string)
| InventoryError (text : error_text)
| ExecutionError (text : error_text)
with error_text :=
| HostNotFound (name : string)
| GroupNotFound (name : string)
| FailedToLoad (cause : exn)
| ConnectionFailed (cause : exn)
| ExecutionFailed (cause : exn)
| UploadFailed (cause : exn)
| DownloadFailed (cause : exn).

Inductive level := DEBUG | INFO | WARNING | ERROR.

(** Decoded text ([str]) is a sequence of Unicode code points; raw output of
    a remote command is [bytes]. *)
Definition text := list N.
Definition bytes := list Byte.byte.

(** What the code hands to the logger, one constructor per f-string. *)
Inductive log_text :=
| AddedHost (name : string)
| LoadedInventory (path : string)
| LoadedCounts (nhosts ngroups : nat)
| LoadFailed (path : string) (e : exn)
| Connecting (hostname username : string)
| Connected (hostname : string)
| ConnectFailed (hostname : string) (e : exn)
| Executing (command : string)
| ExitedWith (status : Z) (stderr : text)
| ExecutedOk
| ExecFailed (e : exn)
| Uploading (local_path remote_path : string)
| Uploaded
| UploadFailedWith (e : exn)
| Downloading (remote_path local_path : string)
| Downloaded
| DownloadFailedWith (e : exn)
| Closed (hostname : string).

(** A run of Python code either returns, raises, or (for a loop of the
    model that is cut off by its step budget) is left unfinished. *)
Inductive outcome (A : Type) :=
| Return (a : A)
| Raise (e : exn)
| OutOfFuel.
Arguments Return {A} a.
Arguments Raise {A} e.
Arguments OutOfFuel {A}.

Definition Py (S A : Type) : Type := S → outcome A * S.

Global Instance py_ret {S} : MRet (Py S) := λ A a s, (Return a, s).

Global Instance py_bind {S} : MBind (Py S) := λ A B k m s,
  match m s with
  | (Return a, s') => k a s'
  | (Raise e, s') => (Raise e, s')
  | (OutOfFuel, s') => (OutOfFuel, s')
  end.

Section Monad.
Context {S : Type}.

Definition raise {A} (e : exn) : Py S A := λ s, (Raise e, s).

Definition diverge {A} : Py S A := λ s, (OutOfFuel, s).

Definition gets {A} (f : S → A) : Py S A := λ s, (Return (f s), s).

Definition modify (f : S → S) : Py S unit := λ s, (Return tt, f s).

(** [try: body except Exception as e: handler e].  The store changes made
    by [body] before it raised are kept. *)
Definition try_except {A} (body : Py S A) (handler : exn → Py S A) : Py S A :=
  λ s, match body s with
       | (Raise e, s') => handler e s'
       | r => r
       end.

(** [for x in xs: body x] over a sequence that the body cannot change. *)
Fixpoint for_each {A} (xs : list A) (body : A → Py S unit) : Py S unit :=
  match xs with
  | [] => mret tt
  | x :: xs' => body x;; for_each xs' body
  end.
End Monad.

(** ** The parsed inventory document

    [yaml.safe_load] returns nested dicts and lists.  The format is the one
    of [example_inventory]: a mapping [hosts] from names to host entries and
    a mapping [groups] from names to group entries; every field of an entry
    may be absent.  A YAML sequence is a Python list object; an alias
    ([&a] / [*a], or a merge key [<<: *a]) makes two entries hold the same
    object, so an entry stores the reference of its list, and the lists
    themselves are in [doc_lists]. *)

Abbreviation ref := nat.

Inductive scalar := SStr (s : string) | SInt (z : Z) | SBool (b : bool).

Record host_data := {
  hd_hostname : option string;
  hd_username : option string;
  hd_password : option string;
  hd_key_file : option string;
  hd_port : option Z;
  hd_groups : option ref;
  hd_variables : option (list (string * scalar))
}.

Record group_data := {
  gd_hosts : option ref;
  gd_variables : option (list (string * scalar))
}.

Record document := {
  doc_lists : list (list string);
  doc_hosts : list (string * host_data);
  doc_groups : list (string * group_data)
}.

(** ** inventory.py *)

Module Host.

Record t := {
  hostname : string;
  username : string;
  password : option string;
  key_file : option string;
  port : Z;
  groups : ref;
  variables : list (string * scalar)
}.

End Host.

Module Inventory.

(** The Python store while an inventory is alive: the list objects, the two
    dicts of the [Inventory] instance, and what went to the logger. *)
Record state := {
  lists : list (list string);
  hosts : gmap string Host.t;
  groups : gmap string (list string);
  log : list (level * log_text)
}.

Definition set_lists (f : list (list string) → list (list string)) (s : state) : state :=
  {| lists := f (lists s); hosts := hosts s; groups := groups s; log := log s |}.

Definition set_hosts (f : gmap string Host.t → gmap string Host.t) (s : state) : state :=
  {| lists := lists s; hosts := f (hosts s); groups := groups s; log := log s |}.

Definition set_groups (f : gmap string (list string) → gmap string (list string)) (s : state) : state :=
  {| lists := lists s; hosts := hosts s; groups := f (groups s); log := log s |}.

Definition logger (lv : level) (m : log_text) : Py state unit :=
  modify (λ s, {| lists := lists s; hosts := hosts s; groups := groups s;
                  log := log s ++ [(lv, m)] |}).

(** The list object behind a reference. *)
Definition deref (r : ref) : Py state (list string) :=
  gets (λ s, default [] (lists s !! r)).

(** A list display [[]]: a new list object. *)
Definition new_list : Py state ref :=
  r ← gets (λ s, length (lists s));
  modify (set_lists (λ h, h ++ [[]]));;
  mret r.

(** [l.append(x)] on the object at [r]. *)
Definition append (r : ref) (x : string) : Py state unit :=
  modify (set_lists (alter (λ l, l ++ [x]) r)).

(** [data[key]] for a key that may be absent. *)
Definition subscript {A} (key : string) (field : option A) : Py state A :=
  match field with
  | Some v => mret v
  | None => raise (KeyError key)
  end.

(** [Host.from_dict] followed by [Host.__init__].  [data.get('groups', [])]
    builds its default list before the call; [groups or []] keeps the
    document's list object when it is non-empty and takes a new list
    otherwise. *)
Definition from_dict (data : host_data) : Py state Host.t :=
  hostname ← subscript "hostname" (hd_hostname data);
  username ← subscript "username" (hd_username data);
  fallback ← new_list;
  let groups_arg := default fallback (hd_groups data) in
  l ← deref groups_arg;
  groups ← (if bool_decide (l = []) then new_list else mret groups_arg);
  mret {| Host.hostname := hostname;
          Host.username := username;
          Host.password := hd_password data;
          Host.key_file := hd_key_file data;
          Host.port := default 22%Z (hd_port data);
          Host.groups := groups;
          Host.variables := default [] (hd_variables data) |}.

(** One round of the loop of [add_host]. *)
Definition register (name group : string) : Py state unit :=
  modify (set_groups (λ g,
    let g1 := if bool_decide (is_Some (g !! group)) then g else <[group := []]> g in
    let members := default [] (g1 !! group) in
    if bool_decide (name ∈ members) then g1 else <[group := members ++ [name]]> g1)).

(** [add_host]: the loop runs over [host.groups] and its body only touches
    [self.groups], so the list it iterates over is fixed during the loop. *)
Definition add_host (name : string) (host : Host.t) : Py state unit :=
  modify (set_hosts (insert name host));;
  gs ← deref (Host.groups host);
  for_each gs (register name);;
  logger DEBUG (AddedHost name).

Definition get_host (name : string) : Py state Host.t :=
  hs ← gets hosts;
  match hs !! name with
  | None => raise (InventoryError (HostNotFound name))
  | Some h => mret h
  end.

Fixpoint hosts_of_names (hs : gmap string Host.t) (names : list string) : Py state (list Host.t) :=
  match names with
  | [] => mret []
  | n :: names' =>
      h ← subscript n (hs !! n);
      rest ← hosts_of_names hs names';
      mret (h :: rest)
  end.

Definition get_group_hosts (group : string) : Py state (list Host.t) :=
  gs ← gets groups;
  match gs !! group with
  | None => raise (InventoryError (GroupNotFound group))
  | Some names => hs ← gets hosts; hosts_of_names hs names
  end.

(** Body of the inner loop of the groups pass of [from_yaml]. *)
Definition link (group_name host_name : string) : Py state unit :=
  hs ← gets hosts;
  match hs !! host_name with
  | None => mret tt
  | Some host =>
      own ← deref (Host.groups host);
      if bool_decide (group_name ∈ own) then mret tt
      else
        append (Host.groups host) group_name;;
        modify (set_groups (λ g,
          let g1 := if bool_decide (is_Some (g !! group_name)) then g
                    else <[group_name := []]> g in
          <[group_name := default [] (g1 !! group_name) ++ [host_name]]> g1))
  end.

(** [for x in l: body x] over the list object at [r], which the body may
    extend: Python's list iterator keeps an index and stops when the index
    is past the current end.  [fuel] bounds the number of rounds. *)
Fixpoint for_in (fuel : nat) (r : ref) (i : nat) (body : string → Py state unit) : Py state unit :=
  match fuel with
  | O => diverge
  | S fuel' =>
      l ← deref r;
      match l !! i with
      | None => mret tt
      | Some x => body x;; for_in fuel' r (S i) body
      end
  end.

(** One entry of the [groups] mapping.  The inner loop can extend the list
    it runs over by at most the one name [group_name], hence the budget. *)
Definition load_group (entry : string * group_data) : Py state unit :=
  match gd_hosts entry.2 with
  | None => mret tt
  | Some r => l ← deref r; for_in (length l + 2) r 0 (link entry.1)
  end.

Definition load_host (entry : string * host_data) : Py state unit :=
  host ← from_dict entry.2;
  add_host entry.1 host.

(** [Inventory.__init__]. *)
Definition init : state :=
  {| lists := []; hosts := ∅; groups := ∅; log := [] |}.

(** [from_yaml].  [source] is what [open(path)] and [yaml.safe_load] give:
    an exception, or the parsed document.  The classmethod starts from a new
    [Inventory]; the store holds the list objects of the parsed document. *)
Definition from_yaml (path : string) (source : exn + document) : outcome unit * state :=
  try_except
    (data ← match source with inl e => raise e | inr d => mret d end;
     modify (set_lists (λ _, doc_lists data));;
     for_each (doc_hosts data) load_host;;
     for_each (doc_groups data) load_group;;
     logger INFO (LoadedInventory path);;
     s ← gets id;
     logger DEBUG (LoadedCounts (size (hosts s)) (size (groups s))))
    (λ e, logger ERROR (LoadFailed path e);;
          raise (InventoryError (FailedToLoad e)))
    init.

End Inventory.

(** ** executor.py *)

(** *** Decoding and trimming of command output

    [bytes.decode()] is strict UTF-8: well-formed byte sequences only, no
    overlong forms, no surrogates, nothing above U+10FFFF. *)

Definition between (lo hi b : N) : bool := (lo <=? b)%N && (b <=? hi)%N.

Definition continuation (b : N) : bool := between 0x80 0xBF b.

Definition payload (b : N) : N := N.land b 0x3F.

(** Range of the second byte of a three-byte form. *)
Definition second_of_three (b0 b1 : N) : bool :=
  if (b0 =? 0xE0)%N then between 0xA0 0xBF b1
  else if (b0 =? 0xED)%N then between 0x80 0x9F b1
  else continuation b1.

(** Range of the second byte of a four-byte form. *)
Definition second_of_four (b0 b1 : N) : bool :=
  if (b0 =? 0xF0)%N then between 0x90 0xBF b1
  else if (b0 =? 0xF4)%N then between 0x80 0x8F b1
  else continuation b1.

Fixpoint utf8_decode (bs : list N) : option text :=
  match bs with
  | [] => Some []
  | b0 :: bs1 =>
      if (b0 <? 0x80)%N then cons b0 <$> utf8_decode bs1
      else
        match bs1 with
        | [] => None
        | b1 :: bs2 =>
            if between 0xC2 0xDF b0 then
              if continuation b1
              then cons (N.lor (N.shiftl (N.land b0 0x1F) 6) (payload b1))
                     <$> utf8_decode bs2
              else None
            else
              match bs2 with
              | [] => None
              | b2 :: bs3 =>
                  if between 0xE0 0xEF b0 then
                    if second_of_three b0 b1 && continuation b2
                    then cons (N.lor (N.shiftl (N.land b0 0x0F) 12)
                                 (N.lor (N.shiftl (payload b1) 6) (payload b2)))
                           <$> utf8_decode bs3
                    else None
                  else
                    match bs3 with
                    | [] => None
                    | b3 :: bs4 =>
                        if between 0xF0 0xF4 b0 && second_of_four b0 b1
                           && continuation b2 && continuation b3
                        then cons (N.lor (N.shiftl (N.land b0 0x07) 18)
                                     (N.lor (N.shiftl (payload b1) 12)
                                        (N.lor (N.shiftl (payload b2) 6) (payload b3))))
                               <$> utf8_decode bs4
                        else None
                    end
              end
        end
  end.

Definition decode (b : bytes) : option text := utf8_decode (Byte.to_N <$> b).

(** [str.isspace] for one character, as [str.strip()] uses it. *)
Definition isspace (c : N) : bool :=
  between 0x09 0x0D c || between 0x1C 0x20 c || (c =? 0x85)%N || (c =? 0xA0)%N
  || (c =? 0x1680)%N || between 0x2000 0x200A c || (c =? 0x2028)%N
  || (c =? 0x2029)%N || (c =? 0x202F)%N || (c =? 0x205F)%N || (c =? 0x3000)%N.

Fixpoint lstrip (s : text) : text :=
  match s with
  | c :: s' => if isspace c then lstrip s' else s
  | [] => []
  end.

Definition strip (s : text) : text := reverse (lstrip (reverse (lstrip s))).

(** *** The transport

    Paramiko is outside the repository.  The executor sees it through the
    calls below; whether a call raises, and what a command sends back, is
    decided by the transport from everything that happened so far. *)

Abbreviation handle := nat.

Record connect_kwargs := {
  kw_hostname : string;
  kw_username : string;
  kw_port : Z;
  kw_timeout : Z;
  kw_password : option string;
  kw_key_filename : option string
}.

Inductive call :=
| NewClient (h : handle)
| SetMissingHostKeyPolicy (h : handle)
| Connect (h : handle) (kwargs : connect_kwargs)
| ExecCommand (h : handle) (command : string)
| OpenSftp (h : handle)
| SftpPut (h : handle) (local_path remote_path : string)
| SftpChmod (h : handle) (remote_path : string) (mode : Z)
| SftpGet (h : handle) (remote_path local_path : string)
| SftpClose (h : handle)
| Close (h : handle).

Inductive event :=
| Called (c : call)
| Logged (lv : level) (m : log_text).

(** The three reads [execute] performs on the channel of a started command,
    in the order it performs them. *)
Record channel := {
  recv_exit_status : exn + Z;
  stdout_read : exn + bytes;
  stderr_read : exn + bytes
}.

Class Transport := {
  fails : list event → call → option exn;
  exec_command : list event → handle → string → exn + channel
}.

Record result := {
  stdout : text;
  stderr : text;
  status : Z
}.

Module Executor.

Record t := {
  hostname : string;
  username : string;
  password : option string;
  key_filename : option string;
  port : Z;
  timeout : Z;
  client : option handle
}.

(** [Executor.__init__]. *)
Definition init (hostname username : string) (password key_filename : option string)
    (port timeout : Z) : t :=
  {| hostname := hostname; username := username; password := password;
     key_filename := key_filename; port := port; timeout := timeout;
     client := None |}.

(** The instance and everything it did to the outside, oldest first. *)
Record world := {
  self : t;
  trace : list event
}.

Definition set_client (c : option handle) (w : world) : world :=
  {| self := {| hostname := hostname (self w); username := username (self w);
                password := password (self w); key_filename := key_filename (self w);
                port := port (self w); timeout := timeout (self w); client := c |};
     trace := trace w |}.

Definition emit (ev : event) (w : world) : world :=
  {| self := self w; trace := trace w ++ [ev] |}.

Definition logger (lv : level) (m : log_text) : Py world unit :=
  modify (emit (Logged lv m)).

(** Truth value of an [Optional[str]]: [None] and the empty string are false. *)
Definition truthy (o : option string) : option string :=
  match o with
  | Some s => if bool_decide (s = "") then None else Some s
  | None => None
  end.

(** The keyword arguments [connect] builds for [SSHClient.connect]. *)
Definition connect_kwargs_of (e : t) : connect_kwargs :=
  {| kw_hostname := hostname e;
     kw_username := username e;
     kw_port := port e;
     kw_timeout := timeout e;
     kw_password := truthy (password e);
     kw_key_filename := truthy (key_filename e) |}.

(** [self.client.<method>]: the attribute lookup fails on [None]. *)
Definition the_client (method : string) : Py world handle :=
  c ← gets (λ w, client (self w));
  match c with
  | Some h => mret h
  | None => raise (AttributeError method)
  end.

Section WithTransport.
Context {transport : Transport}.

(** A call into paramiko that returns nothing of interest. *)
Definition invoke (c : call) : Py world unit :=
  tr ← gets trace;
  modify (emit (Called c));;
  match fails tr c with
  | Some e => raise e
  | None => mret tt
  end.

Definition from_read {A} (r : exn + A) : Py world A :=
  match r with
  | inl e => raise e
  | inr a => mret a
  end.

Definition connect : Py world unit :=
  try_except
    (h ← gets (λ w, length (trace w));
     modify (emit (Called (NewClient h)));;
     modify (set_client (Some h));;
     h ← the_client "set_missing_host_key_policy";
     modify (emit (Called (SetMissingHostKeyPolicy h)));;
     e ← gets self;
     logger INFO (Connecting (hostname e) (username e));;
     h ← the_client "connect";
     invoke (Connect h (connect_kwargs_of e));;
     logger INFO (Connected (hostname e)))
    (λ x, e ← gets self;
          logger ERROR (ConnectFailed (hostname e) x);;
          raise (ExecutionError (ConnectionFailed x))).

(** [if not self.client: self.connect()]. *)
Definition ensure_connected : Py world unit :=
  c ← gets (λ w, client (self w));
  match c with
  | None => connect
  | Some _ => mret tt
  end.

(** The command line [execute] sends, from its three arguments. *)
Definition build_command (command : string) (sudo : bool)
    (env : option (list (string * string))) : string :=
  let command := if sudo then "sudo " +:+ command else command in
  let env_str := String.concat " " ((λ kv, kv.1 +:+ "=" +:+ kv.2) <$> default [] env) in
  if bool_decide (env_str = "") then command else env_str +:+ " " +:+ command.

Definition decoded (b : bytes) : Py world text :=
  match decode b with
  | Some s => mret s
  | None => raise UnicodeDecodeError
  end.

Definition execute (command : string) (sudo : bool)
    (env : option (list (string * string))) : Py world result :=
  ensure_connected;;
  try_except
    (logger DEBUG (Executing (if sudo then "sudo " +:+ command else command));;
     let command := build_command command sudo env in
     h ← the_client "exec_command";
     tr ← gets trace;
     modify (emit (Called (ExecCommand h command)));;
     ch ← from_read (exec_command tr h command);
     exit_status ← from_read (recv_exit_status ch);
     out ← from_read (stdout_read ch);
     stdout_str ← decoded out;
     err ← from_read (stderr_read ch);
     stderr_str ← decoded err;
     (if bool_decide (exit_status ≠ 0%Z)
      then logger WARNING (ExitedWith exit_status (strip stderr_str))
      else logger DEBUG ExecutedOk);;
     mret {| stdout := strip stdout_str; stderr := strip stderr_str;
             status := exit_status |})
    (λ x, logger ERROR (ExecFailed x);;
          raise (ExecutionError (ExecutionFailed x))).

Definition upload_file (local_path remote_path : string) (mode : option Z) : Py world unit :=
  ensure_connected;;
  try_except
    (h ← the_client "open_sftp";
     invoke (OpenSftp h);;
     logger INFO (Uploading local_path remote_path);;
     invoke (SftpPut h local_path remote_path);;
     match mode with
     | Some m => invoke (SftpChmod h remote_path m)
     | None => mret tt
     end;;
     invoke (SftpClose h);;
     logger INFO Uploaded)
    (λ x, logger ERROR (UploadFailedWith x);;
          raise (ExecutionError (UploadFailed x))).

Definition download_file (remote_path local_path : string) : Py world unit :=
  ensure_connected;;
  try_except
    (h ← the_client "open_sftp";
     invoke (OpenSftp h);;
     logger INFO (Downloading remote_path local_path);;
     invoke (SftpGet h remote_path local_path);;
     invoke (SftpClose h);;
     logger INFO Downloaded)
    (λ x, logger ERROR (DownloadFailedWith x);;
          raise (ExecutionError (DownloadFailed x))).

(** [close]: [SSHClient.close] does not raise. *)
Definition close : Py world unit :=
  c ← gets (λ w, client (self w));
  match c with
  | Some h =>
      modify (emit (Called (Close h)));;
      modify (set_client None);;
      e ← gets self;
      logger INFO (Closed (hostname e))
  | None => mret tt
  end.

End WithTransport.

End Executor.

(** ** logger.py *)

Module Logger.

(** [pathlib.Path]: the path and what its [parent] evaluates to. *)
Record path := {
  path_str : string;
  path_parent : string
}.

(** The two kinds of handler [CatalystLogger] creates, with the format
    string of their formatter. *)
Inductive handler :=
| RichHandler (fmt datefmt : string)
| FileHandler (file : string) (fmt : string).

(** A [logging.Logger]: its numeric level and its handler list. *)
Record logger := {
  lg_level : N;
  lg_handlers : list handler
}.

(** What the module does to the file system. *)
Inductive fs_call :=
| Mkdir (dir : string)
| OpenAppend (file : string).

(** The table of loggers that [logging.getLogger] keeps for the process,
    and the file-system calls made so far. *)
Record state := {
  loggers : gmap string logger;
  fs : list fs_call
}.

Inductive error :=
| ValueError (level_name : string)
| OSError (text : string).

(** [logging._nameToLevel]. *)
Definition level_of_name (name : string) : option N :=
  if bool_decide (name = "CRITICAL") then Some 50%N
  else if bool_decide (name = "FATAL") then Some 50%N
  else if bool_decide (name = "ERROR") then Some 40%N
  else if bool_decide (name = "WARN") then Some 30%N
  else if bool_decide (name = "WARNING") then Some 30%N
  else if bool_decide (name = "INFO") then Some 20%N
  else if bool_decide (name = "DEBUG") then Some 10%N
  else if bool_decide (name = "NOTSET") then Some 0%N
  else None.

(** The name under which [logging] keeps the logger that [getLogger(name)]
    returns: the root logger answers to the empty name and to its own name,
    [root]; every other name has a logger of its own. *)
Definition logger_key (name : string) : string :=
  if bool_decide (name = "") then "root" else name.

(** A logger nothing has configured yet: the root logger starts at level
    [WARNING], any other is created at [NOTSET]; neither has handlers. *)
Definition unconfigured (key : string) : logger :=
  {| lg_level := if bool_decide (key = "root") then 30 else 0; lg_handlers := [] |}.

(** [logging.getLogger(name)]: the logger kept under the key of [name],
    entered in the table if it was not there. *)
Definition getLogger (name : string) (s : state) : string * state :=
  let key := logger_key name in
  match loggers s !! key with
  | Some _ => (key, s)
  | None => (key, {| loggers := <[key := unconfigured key]> (loggers s); fs := fs s |})
  end.

(** An assignment to the attributes of the logger kept under [key]. *)
Definition update (key : string) (f : logger → logger) (s : state) : state :=
  {| loggers := alter f key (loggers s); fs := fs s |}.

Definition console_handler : handler := RichHandler "%(message)s" "[%X]".

Definition file_handler (file : string) : handler :=
  FileHandler file "%(asctime)s - %(name)s - %(levelname)s - %(message)s".

Section WithEnvironment.
(** [str.upper] of the interpreter.  It is not ASCII-only ([U+0131] becomes
    [I], [U+017F] becomes [S]), and the module relies on nothing but its
    result, so it stays a parameter. *)
Variable str_upper : string → string.
(** Whether a file-system call raises, given the calls made before. *)
Variable fs_fails : list fs_call → fs_call → option string.

Definition fs_do (c : fs_call) (s : state) : option string * state :=
  (fs_fails (fs s) c, {| loggers := loggers s; fs := fs s ++ [c] |}).

(** [CatalystLogger.__init__], which is all [get_logger] runs. *)
Definition get_logger (name level : string) (log_file : option path) (s : state)
    : option error * state :=
  let '(self_logger, s) := getLogger name s in
  match level_of_name (str_upper level) with
  | None => (Some (ValueError (str_upper level)), s)
  | Some lv =>
      let s := update self_logger (λ l, {| lg_level := lv; lg_handlers := lg_handlers l |}) s in
      let s := update self_logger (λ l, {| lg_level := lg_level l; lg_handlers := [] |}) s in
      let s := update self_logger (λ l, {| lg_level := lg_level l;
                                   lg_handlers := lg_handlers l ++ [console_handler] |}) s in
      match log_file with
      | None => (None, s)
      | Some p =>
          match fs_do (Mkdir (path_parent p)) s with
          | (Some x, s) => (Some (OSError x), s)
          | (None, s) =>
              match fs_do (OpenAppend (path_str p)) s with
              | (Some x, s) => (Some (OSError x), s)
              | (None, s) =>
                  (None, update self_logger (λ l, {| lg_level := lg_level l;
                           lg_handlers := lg_handlers l ++ [file_handler (path_str p)] |}) s)
              end
          end
      end
  end.

End WithEnvironment.

End Logger.

(** ** examples/basic_usage.py *)

Module BasicUsage.

(** What [main] hands to its own logger. *)
Inductive report :=
| ConnectingTo (host_name : string)
| SuccessOn (host_name : string) (stdout : text)
| ErrorOn (host_name : string) (stderr : text)
| FailedOn (host_name : string) (e : exn).

(** The transport calls and executor log lines so far, and the lines of
    [main]'s logger. *)
Record state := {
  events : list event;
  reports : list (level * report)
}.

Section WithTransport.
Context {transport : Transport}.

(** One round of the loop over [inventory.hosts.items()]: the executor is
    built from four fields of the host, so its port and timeout are the
    defaults of [Executor.__init__]; the [finally] clause closes it. *)
Definition visit (host_name : string) (host : Host.t) (s : state) : state :=
  let reports := reports s ++ [(INFO, ConnectingTo host_name)] in
  let executor :=
    Executor.init (Host.hostname host) (Host.username host)
      (Host.password host) (Host.key_file host) 22 30 in
  let run :=
    Executor.execute "uname -a" false None
      {| Executor.self := executor; Executor.trace := events s |} in
  let reports :=
    match run.1 with
    | Return result =>
        if bool_decide (status result = 0%Z)
        then reports ++ [(INFO, SuccessOn host_name (stdout result))]
        else reports ++ [(ERROR, ErrorOn host_name (stderr result))]
    | Raise e => reports ++ [(ERROR, FailedOn host_name e)]
    | OutOfFuel => reports
    end in
  {| events := Executor.trace (Executor.close run.2).2; reports := reports |}.

(** The loop, over the hosts in the order the dict gives them. *)
Definition visit_all (hosts : list (string * Host.t)) (s : state) : state :=
  foldl (λ s entry, visit entry.1 entry.2 s) s hosts.

End WithTransport.

End BasicUsage.

(** * Notions used in the statements *)

Import Inventory.

(** ** Inventory *)

(** [returns m s Q]: run from [s], [m] returns a value and a store that
    satisfy [Q]. *)
Definition returns {S A} (m : Py S A) (s : S) (Q : A → S → Prop) : Prop :=
  ∃ a s', m s = (Return a, s') ∧ Q a s'.

(** The names registered under a group, and the list behind a reference. *)
Definition members (s : state) (g : string) : list string :=
  default [] (groups s !! g).

Definition list_at (s : state) (r : ref) : list string :=
  default [] (lists s !! r).

(** The group list of a loaded host is the list object of its entry when
    that one is not empty, and a new empty list otherwise. *)
Definition keeps_entry_list (data : host_data) (s : state) (r : ref) : Prop :=
  hd_groups data = Some r ∧ list_at s r ≠ [].

(** Rounds left for the loop of [load_group]: the elements not yet visited,
    and one more as long as the group name can still be appended. *)
Definition rounds_left (group_name : string) (r : ref) (i : nat) (s : state) : nat :=
  (length (list_at s r) - i + (if bool_decide (group_name ∈ list_at s r) then 0 else 1))%nat.

(** A host entry with its two required fields. *)
Definition complete (data : host_data) : Prop :=
  is_Some (hd_hostname data) ∧ is_Some (hd_username data).

(** Every registered member of a group is a host of the inventory. *)
Definition members_known (s : state) : Prop :=
  ∀ g m, m ∈ members s g → is_Some (hosts s !! m).

(** *** Concrete documents *)

Definition host_entry (hostname username : option string) (groups : option ref) : host_data :=
  {| hd_hostname := hostname; hd_username := username; hd_password := None;
     hd_key_file := None; hd_port := None; hd_groups := groups;
     hd_variables := None |}.

Definition group_entry (hosts : option ref) : group_data :=
  {| gd_hosts := hosts; gd_variables := None |}.

(** <<
    hosts:
      web1: {hostname: web1.example.com, username: admin, groups: &common [production]}
      web2: {hostname: web2.example.com, username: admin, groups: *common}
    groups:
      webservers: {hosts: [web1, web2]}
    >> *)
Definition aliased_inventory : document :=
  {| doc_lists := [["production"]; ["web1"; "web2"]];
     doc_hosts := [("web1", host_entry (Some "web1.example.com") (Some "admin") (Some 0%nat));
                   ("web2", host_entry (Some "web2.example.com") (Some "admin") (Some 0%nat))];
     doc_groups := [("webservers", group_entry (Some 1%nat))] |}.

(** <<
    hosts:
      web1: {hostname: web1.example.com, username: admin, groups: [production]}
    groups:
      webservers: {hosts: [web1, ghost]}
    >> *)
Definition inventory_with_unknown_member : document :=
  {| doc_lists := [["production"]; ["web1"; "ghost"]];
     doc_hosts := [("web1", host_entry (Some "web1.example.com") (Some "admin") (Some 0%nat))];
     doc_groups := [("webservers", group_entry (Some 1%nat))] |}.

(** <<
    hosts:
      web1: {hostname: web1.example.com}
    groups:
      webservers: {hosts: [web1, ghost]}
    >> *)
Definition inventory_with_unknown_member_and_incomplete_host : document :=
  {| doc_lists := [["web1"; "ghost"]];
     doc_hosts := [("web1", host_entry (Some "web1.example.com") None None)];
     doc_groups := [("webservers", group_entry (Some 0%nat))] |}.

(** <<
    hosts:
      web1: {hostname: web1.example.com, username: admin}
      db1: {hostname: db1.example.com}
    >> *)
Definition inventory_without_username : document :=
  {| doc_lists := [];
     doc_hosts := [("web1", host_entry (Some "web1.example.com") (Some "admin") None);
                   ("db1", host_entry (Some "db1.example.com") None None)];
     doc_groups := [] |}.

(** *** Loading a document without shared lists *)

(** The hosts of the inventory have list objects of their own, and every
    group a host names has the host among its members. *)
Definition linked (s : state) : Prop :=
  (∀ n h, hosts s !! n = Some h → (Host.groups h < length (lists s))%nat) ∧
  (∀ n1 n2 h1 h2, hosts s !! n1 = Some h1 → hosts s !! n2 = Some h2 →
     Host.groups h1 = Host.groups h2 → n1 = n2) ∧
  (∀ n h g, hosts s !! n = Some h → g ∈ list_at s (Host.groups h) → n ∈ members s g).

(** Lists are only ever extended at their end. *)
Definition grown (s s' : state) : Prop :=
  ∀ r, list_at s r `prefix_of` list_at s' r.

(** After the groups pass, every host listed under a group has the group in
    its own list. *)
Definition listed_are_linked (entries : list (string * group_data)) (s0 s : state) : Prop :=
  ∀ entry r x h, entry ∈ entries → gd_hosts entry.2 = Some r →
    x ∈ list_at s0 r → hosts s0 !! x = Some h →
    entry.1 ∈ list_at s (Host.groups h).

(** The list objects the host entries of a document hold. *)
Definition entry_lists (entries : list (string * host_data)) : list ref :=
  omap (λ entry, hd_groups entry.2) entries.

(** The store is the document's lists followed by lists that are still
    empty. *)
Definition padded (d : document) (s : state) : Prop :=
  ∃ extra, lists s = doc_lists d ++ extra ∧ Forall (λ l, l = []) extra.

(** What the hosts pass has established after the entries [done_]. *)
Definition hosts_loaded (d : document) (done_ : list (string * host_data)) (s : state) : Prop :=
  linked s ∧ padded d s ∧
  (∀ n h, hosts s !! n = Some h →
     ∃ data, (n, data) ∈ done_ ∧
       (hd_groups data = Some (Host.groups h) ∧ (Host.groups h < length (doc_lists d))%nat
        ∨ (length (doc_lists d) ≤ Host.groups h)%nat)) ∧
  (∀ n data, (n, data) ∈ done_ →
     ∃ h, hosts s !! n = Some h ∧
       ∀ r, hd_groups data = Some r → default [] (doc_lists d !! r) ≠ [] →
            Host.groups h = r).

(** A host entry is described as a member of [g] either by its own list or
    by the list of the group's entry. *)
Definition described_in (d : document) (name : string) (data : host_data) (g : string) : Prop :=
  (∃ r l, hd_groups data = Some r ∧ doc_lists d !! r = Some l ∧ g ∈ l)
  ∨ (∃ gd r l, (g, gd) ∈ doc_groups d ∧ gd_hosts gd = Some r ∧
               doc_lists d !! r = Some l ∧ name ∈ l).

(** *** The example inventory of the source file *)

(** [example_inventory] of [inventory.py]: [web1] in [webservers] and
    [production], [db1] in [databases] and [production]; the three group
    entries carry variables only. *)
Definition example_inventory : document :=
  {| doc_lists := [["webservers"; "production"]; ["databases"; "production"]];
     doc_hosts :=
       [("web1", {| hd_hostname := Some "web1.example.com"; hd_username := Some "admin";
                    hd_password := None; hd_key_file := Some "~/.ssh/id_rsa";
                    hd_port := None; hd_groups := Some 0%nat;
                    hd_variables := Some [("http_port", SInt 80); ("https_port", SInt 443)] |});
        ("db1", {| hd_hostname := Some "db1.example.com"; hd_username := Some "dbadmin";
                   hd_password := Some "secure_password"; hd_key_file := None;
                   hd_port := None; hd_groups := Some 1%nat;
                   hd_variables := Some [("db_port", SInt 5432)] |})];
     doc_groups :=
       [("webservers", {| gd_hosts := None;
                          gd_variables := Some [("nginx_enabled", SBool true)] |});
        ("databases", {| gd_hosts := None;
                         gd_variables := Some [("backup_enabled", SBool true)] |});
        ("production", {| gd_hosts := None;
                          gd_variables := Some [("environment", SStr "prod")] |})] |}.

Import Executor.

(** ** Executor *)

Definition is_connect (ev : event) : bool :=
  match ev with Called (Connect _ _) => true | _ => false end.

(** Number of times the transport was asked to open a session. *)
Definition connection_attempts (tr : list event) : nat :=
  length (filter (λ ev, is_connect ev = true) tr).

(** The command lines handed to [exec_command], oldest first. *)
Definition sent_commands (tr : list event) : list string :=
  omap (λ ev, match ev with Called (ExecCommand _ c) => Some c | _ => None end) tr.

(** The command line as the specification words it: the environment
    assignments, if there are any, joined by spaces and followed by a space,
    then [sudo ] if requested, then the command. *)
Definition spec_command (command : string) (sudo : bool) (env : list (string * string)) : string :=
  let sudo_prefix := if sudo then "sudo " else "" in
  let env_prefix :=
    match env with
    | [] => ""
    | _ => String.concat " " ((λ kv, kv.1 +:+ "=" +:+ kv.2) <$> env) +:+ " "
    end in
  env_prefix +:+ sudo_prefix +:+ command.

(** [s] is [raw] without its leading and trailing whitespace. *)
Definition trimmed (raw s : text) : Prop :=
  ∃ lead trail, raw = lead ++ s ++ trail ∧
    Forall (λ c, isspace c = true) lead ∧ Forall (λ c, isspace c = true) trail ∧
    (∀ c, head s = Some c → isspace c = false) ∧
    (∀ c, last s = Some c → isspace c = false).

(** Transports used as concrete instances. *)

(** Refuses every session. *)
Definition refusing : Transport :=
  {| fails := λ _ c, match c with
                     | Connect _ _ => Some (SSHException "Unable to connect")
                     | _ => None
                     end;
     exec_command := λ _ _ _, inl (SSHException "SSH session not active") |}.

(** Accepts every session; every command prints [reply_out] and [reply_err]
    and exits with [reply_status]. *)
Definition replying (reply_out reply_err : bytes) (reply_status : Z) : Transport :=
  {| fails := λ _ _, None;
     exec_command := λ _ _ _, inr {| recv_exit_status := inr reply_status;
                                     stdout_read := inr reply_out;
                                     stderr_read := inr reply_err |} |}.

(** What a session can be opened with. *)
Inductive credential :=
| ByKeyFile (key_filename : string)
| ByPassword (password : string).

#[global] Instance credential_eq_dec : EqDecision credential.
Proof. solve_decision. Defined.





Definition fresh (e : Executor.t) : world := {| self := e; trace := [] |}.

(** ** Notions of the further properties *)

(** No group of the index is empty. *)
Definition no_empty_group (G : gmap string (list string)) : Prop :=
  ∀ g ms, G !! g = Some ms → ms ≠ [].

(** The direction of membership that survives shared lists: whoever is
    registered under a group is a host whose own list names the group, and
    is registered once. *)
Definition registered_soundly (s : state) : Prop :=
  (∀ n h, hosts s !! n = Some h → (Host.groups h < length (lists s))%nat) ∧
  (∀ g m, m ∈ members s g →
     ∃ h, hosts s !! m = Some h ∧ g ∈ list_at s (Host.groups h)) ∧
  (∀ g, NoDup (members s g)).

(** A loaded host carries the fields of its entry, with the defaults of
    [Host.from_dict] for the absent ones. *)
Definition loaded_from (data : host_data) (h : Host.t) : Prop :=
  hd_hostname data = Some (Host.hostname h) ∧
  hd_username data = Some (Host.username h) ∧
  Host.password h = hd_password data ∧
  Host.key_file h = hd_key_file data ∧
  Host.port h = default 22%Z (hd_port data) ∧
  Host.variables h = default [] (hd_variables data).

(** A run that ends in an exception ends in [ExecutionError], logged at
    error level as its last act; a run of the model always ends. *)
Definition fails_cleanly {A} (run : outcome A * world) : Prop :=
  match run.1 with
  | Return _ => True
  | Raise e => ∃ text cause, e = ExecutionError text ∧
                             last (trace run.2) = Some (Logged ERROR cause)
  | OutOfFuel => False
  end.

Definition is_close (ev : event) : bool :=
  match ev with Called (Close _) => true | _ => false end.




(** The sessions closed so far. *)
Definition closed_sessions (tr : list event) : list handle :=
  omap (λ ev, match ev with Called (Close h) => Some h | _ => None end) tr.

(** The sessions asked for so far, with the arguments of the request. *)
Definition requested_sessions (tr : list event) : list (handle * connect_kwargs) :=
  omap (λ ev, match ev with Called (Connect h kw) => Some (h, kw) | _ => None end) tr.

(** [str.upper] on strings of ASCII characters, which is all the concrete
    runs below pass as a level name. *)
Definition ascii_upper_char (c : Ascii.ascii) : Ascii.ascii :=
  let n := Ascii.N_of_ascii c in
  if ((97 <=? n) && (n <=? 122))%N then Ascii.ascii_of_N (n - 32) else c.

Fixpoint ascii_upper (s : string) : string :=
  match s with
  | EmptyString => EmptyString
  | String c s' => String (ascii_upper_char c) (ascii_upper s')
  end.

(** A process in which no logger has been touched, a file system that
    refuses to create directories, and a log file. *)
Definition no_loggers : Logger.state := {| Logger.loggers := ∅; Logger.fs := [] |}.


Definition catalyst_log : Logger.path :=
  {| Logger.path_str := "logs/catalyst.log"; Logger.path_parent := "logs" |}.

(** * Properties of the inventory *)

(** *** Rules for runs that return *)

Section Returns.
Context {S : Type}.
Implicit Types s : S.

Lemma returns_ret {A} (a : A) s (Q : A → S → Prop) : Q a s → returns (mret a) s Q.
Proof. intros. by exists a, s. Qed.

Lemma returns_bind {A B} (m : Py S A) (k : A → Py S B) s (Q : B → S → Prop) :
  returns m s (λ a s', returns (k a) s' Q) → returns (m ≫= k) s Q.
Proof.
  intros (a & s' & Hm & b & s'' & Hk & HQ). exists b, s''. split; [|done].
  unfold mbind, py_bind. by rewrite Hm.
Qed.

Lemma returns_gets {A} (f : S → A) s (Q : A → S → Prop) : Q (f s) s → returns (gets f) s Q.
Proof. intros. by exists (f s), s. Qed.

Lemma returns_modify (f : S → S) s (Q : unit → S → Prop) : Q tt (f s) → returns (modify f) s Q.
Proof. intros. by exists tt, (f s). Qed.

Lemma returns_mono {A} (m : Py S A) s (Q Q' : A → S → Prop) :
  returns m s Q → (∀ a s', Q a s' → Q' a s') → returns m s Q'.
Proof. intros (a & s' & ? & ?) HQ. exists a, s'. auto. Qed.

(** Loop rule for [for_each]: an invariant indexed by the part of the
    sequence already gone through. *)
Lemma returns_for_each {A} (body : A → Py S unit) (I : list A → S → Prop) (xs : list A) :
  (∀ done_ x todo s, xs = done_ ++ x :: todo → I done_ s →
     returns (body x) s (λ _, I (done_ ++ [x]))) →
  ∀ s, I [] s → returns (for_each xs body) s (λ _, I xs).
Proof.
  intros Hbody.
  assert (∀ todo done_ s, xs = done_ ++ todo → I done_ s →
            returns (for_each todo body) s (λ _, I xs)) as Hgen.
  { induction todo as [|x todo IH]; intros done_ s Hxs HI; simpl.
    - apply returns_ret. by rewrite app_nil_r in Hxs; subst.
    - apply returns_bind.
      eapply returns_mono; [by eapply Hbody|].
      intros [] s' HI'. apply (IH (done_ ++ [x])); [|done].
      by rewrite <- app_assoc. }
  intros s HI. by apply (Hgen xs []).
Qed.
End Returns.

Lemma members_lookup (s : state) (g m : string) :
  m ∈ members s g → ∃ ms, groups s !! g = Some ms ∧ m ∈ ms.
Proof.
  unfold members. destruct (groups s !! g) as [ms|]; simpl; [eauto|].
  by intros ?%elem_of_nil.
Qed.

Lemma lookup_members (s : state) (g : string) (ms : list string) :
  groups s !! g = Some ms → members s g = ms.
Proof. unfold members. by intros ->. Qed.

(** *** What each operation does to the store *)

Lemma register_spec (name group : string) (s : state) :
  returns (register name group) s (λ _ s',
    lists s' = lists s ∧ hosts s' = hosts s ∧
    name ∈ members s' group ∧
    (∀ g m, m ∈ members s g → m ∈ members s' g) ∧
    (∀ g m, m ∈ members s' g → m ∈ members s g ∨ (m = name ∧ g = group))).
Proof.
  unfold register. apply returns_modify. unfold members. simpl.
  split; [done|]. split; [done|].
  destruct (groups s !! group) as [ms|] eqn:Hg.
  - rewrite (bool_decide_eq_true_2 (is_Some (Some ms))) by done. rewrite Hg. simpl.
    case_bool_decide as Hin.
    + rewrite Hg. split_and!; [done | done | auto].
    + rewrite lookup_insert_eq. simpl. split_and!.
      * rewrite elem_of_app, list_elem_of_singleton. auto.
      * intros g m. destruct (decide (g = group)) as [->|].
        -- rewrite lookup_insert_eq, Hg. simpl. rewrite elem_of_app. auto.
        -- by rewrite lookup_insert_ne.
      * intros g m. destruct (decide (g = group)) as [->|].
        -- rewrite lookup_insert_eq, Hg. simpl.
           rewrite elem_of_app, list_elem_of_singleton. tauto.
        -- rewrite lookup_insert_ne by done. auto.
  - rewrite (bool_decide_eq_false_2 (is_Some None)) by (intros [? ?]; congruence).
    rewrite lookup_insert_eq. simpl.
    rewrite insert_insert_eq, lookup_insert_eq. simpl. split_and!.
    + by apply list_elem_of_singleton.
    + intros g m. destruct (decide (g = group)) as [->|].
      * rewrite Hg. by intros ?%elem_of_nil.
      * by rewrite lookup_insert_ne.
    + intros g m. destruct (decide (g = group)) as [->|].
      * rewrite lookup_insert_eq. simpl. rewrite list_elem_of_singleton. auto.
      * rewrite lookup_insert_ne by done. auto.
Qed.

Lemma add_host_spec (name : string) (host : Host.t) (s : state) :
  returns (add_host name host) s (λ _ s',
    lists s' = lists s ∧ hosts s' = <[name := host]> (hosts s) ∧
    (∀ g, g ∈ list_at s (Host.groups host) → name ∈ members s' g) ∧
    (∀ g m, m ∈ members s g → m ∈ members s' g) ∧
    (∀ g m, m ∈ members s' g →
       m ∈ members s g ∨ (m = name ∧ g ∈ list_at s (Host.groups host)))).
Proof.
  unfold add_host.
  apply returns_bind, returns_modify.
  apply returns_bind, returns_gets. simpl.
  fold (list_at s (Host.groups host)).
  set (gs := list_at s (Host.groups host)).
  apply returns_bind.
  eapply returns_mono.
  - apply (returns_for_each (register name) (λ done_ s',
      lists s' = lists s ∧ hosts s' = <[name := host]> (hosts s) ∧
      (∀ g, g ∈ done_ → name ∈ members s' g) ∧
      (∀ g m, m ∈ members s g → m ∈ members s' g) ∧
      (∀ g m, m ∈ members s' g → m ∈ members s g ∨ (m = name ∧ g ∈ gs)))).
    + intros done_ g todo s1 Hgs (Hl & Hh & Hd & Hup & Hdown).
      assert (g ∈ gs) as Hg by (rewrite Hgs; apply elem_of_app; right; by left).
      eapply returns_mono; [apply register_spec|].
      intros [] s2 (Hl2 & Hh2 & Hin & Hup2 & Hdown2). split_and!.
      * congruence.
      * congruence.
      * intros g' [?| ->%list_elem_of_singleton]%elem_of_app; auto.
      * auto.
      * intros g' m Hm. destruct (Hdown2 g' m Hm) as [?|[-> ->]]; auto.
    + split_and!; [done | done | | done | auto].
      intros g []%elem_of_nil.
  - intros [] s1 (Hl & Hh & Hd & Hup & Hdown).
    unfold Inventory.logger. apply returns_modify. simpl. done.
Qed.

Lemma from_dict_spec (data : host_data) (s : state) (hn un : string) :
  hd_hostname data = Some hn → hd_username data = Some un →
  returns (from_dict data) s (λ h s',
    hosts s' = hosts s ∧ groups s' = groups s ∧
    (∃ extra, lists s' = lists s ++ extra ∧ Forall (λ l, l = []) extra) ∧
    Host.hostname h = hn ∧ Host.username h = un ∧
    (keeps_entry_list data s (Host.groups h)
     ∨ (length (lists s) ≤ Host.groups h < length (lists s'))%nat
       ∧ ∀ r, hd_groups data = Some r → list_at s r = [])).
Proof.
  intros Hhn Hun. unfold from_dict. rewrite Hhn, Hun. simpl.
  apply returns_bind, returns_ret.
  apply returns_bind, returns_ret.
  unfold new_list at 1.
  apply returns_bind, returns_bind, returns_gets, returns_bind, returns_modify, returns_ret.
  apply returns_bind, returns_gets. simpl.
  set (arg := default (length (lists s)) (hd_groups data)).
  assert (default [] ((lists s ++ [[]]) !! arg) = list_at s arg) as ->.
  { unfold list_at. destruct (decide (arg < length (lists s))%nat).
    - by rewrite lookup_app_l.
    - rewrite (lookup_ge_None_2 (lists s)) by lia. simpl.
      destruct (decide (arg = length (lists s))) as [->|].
      + by rewrite list_lookup_middle.
      + rewrite lookup_ge_None_2; [done|]. rewrite length_app. simpl. lia. }
  case_bool_decide as Hempty.
  - unfold new_list.
    apply returns_bind, returns_bind, returns_gets, returns_bind, returns_modify, returns_ret.
    apply returns_ret. simpl. split_and!; [done | done | | done | done |].
    + exists [[]; []]. rewrite <- app_assoc. split; [done|]. by repeat constructor.
    + right. rewrite !length_app. simpl. split; [lia|].
      intros r Hr. subst arg. by rewrite Hr in Hempty.
  - apply returns_bind, returns_ret, returns_ret. simpl.
    split_and!; [done | done | | done | done |].
    + exists [[]]. split; [done|]. by repeat constructor.
    + left. unfold keeps_entry_list. subst arg.
      destruct (hd_groups data) as [r|]; simpl in *; [done|].
      exfalso. apply Hempty. unfold list_at. by rewrite lookup_ge_None_2.
Qed.

Lemma from_dict_raises (data : host_data) (s : state) :
  hd_hostname data = None ∨ hd_username data = None →
  ∃ key, from_dict data s = (Raise (KeyError key), s).
Proof.
  intros Hmiss. unfold from_dict.
  destruct (hd_hostname data) as [hn|] eqn:Hhn.
  - destruct Hmiss as [?|Hun]; [done|]. rewrite Hun. by exists "username".
  - by exists "hostname".
Qed.

(** [link] either leaves the store alone, or appends the group to the
    host's own list and the host to the group's members. *)
Lemma link_spec (group_name host_name : string) (s : state) :
  returns (link group_name host_name) s (λ _ s',
    hosts s' = hosts s ∧
    ((lists s' = lists s ∧ groups s' = groups s ∧
      ∀ h, hosts s !! host_name = Some h → group_name ∈ list_at s (Host.groups h))
     ∨ ∃ h, hosts s !! host_name = Some h ∧
            (group_name ∉ list_at s (Host.groups h)) ∧
            lists s' = alter (λ l, l ++ [group_name]) (Host.groups h) (lists s) ∧
            groups s' = <[group_name := members s group_name ++ [host_name]]> (groups s))).
Proof.
  unfold link. apply returns_bind, returns_gets.
  destruct (hosts s !! host_name) as [h|] eqn:Hh.
  - apply returns_bind, returns_gets. fold (list_at s (Host.groups h)).
    case_bool_decide as Hin.
    + apply returns_ret. split; [done|]. left. split_and!; [done..|].
      by intros ? [= <-].
    + unfold append. apply returns_bind, returns_modify, returns_modify. simpl.
      split; [done|]. right. exists h. split_and!; [done..|].
      unfold members. destruct (groups s !! group_name) as [ms|] eqn:Hg.
      * rewrite (bool_decide_eq_true_2 (is_Some (Some ms))) by done. by rewrite Hg.
      * rewrite (bool_decide_eq_false_2 (is_Some None)) by (intros [? ?]; congruence).
        by rewrite lookup_insert_eq, insert_insert_eq.
  - apply returns_ret. split; [done|]. left. by split_and!.
Qed.

(** Loop rule for [for_in]: an invariant indexed by the position of the
    iterator, and a variant that bounds the rounds still to come. *)
Lemma returns_for_in (r : ref) (body : string → Py state unit)
    (I : nat → state → Prop) (variant : nat → state → nat) :
  (∀ i x s, I i s → list_at s r !! i = Some x →
     returns (body x) s (λ _ s', I (S i) s' ∧ (variant (S i) s' < variant i s)%nat)) →
  ∀ fuel i s, I i s → (variant i s < fuel)%nat →
    returns (for_in fuel r i body) s (λ _ s',
      ∃ j, I j s' ∧ (length (list_at s' r) ≤ j)%nat).
Proof.
  intros Hbody. induction fuel as [|fuel IH]; intros i s HI Hfuel; [lia|].
  simpl. apply returns_bind, returns_gets. fold (list_at s r).
  destruct (list_at s r !! i) as [x|] eqn:Hx.
  - apply returns_bind. eapply returns_mono; [by apply Hbody|].
    intros [] s' [HI' Hlt]. apply IH; [done | lia].
  - apply returns_ret. exists i. split; [done|]. by apply lookup_ge_None.
Qed.

(** How [link] moves the list the loop of [load_group] runs over. *)
Lemma link_list_at (group_name host_name : string) (r : ref) (s : state) :
  returns (link group_name host_name) s (λ _ s',
    list_at s' r = list_at s r
    ∨ (group_name ∉ list_at s r) ∧ list_at s' r = list_at s r ++ [group_name]).
Proof.
  eapply returns_mono; [apply link_spec|].
  intros [] s' [_ [(Hl & _)|(h & _ & Hnot & Hl & _)]].
  - left. unfold list_at. by rewrite Hl.
  - unfold list_at in *. rewrite Hl.
    destruct (decide (r = Host.groups h)) as [->|Hne].
    + revert Hnot. rewrite list_lookup_alter_eq.
      destruct (lists s !! Host.groups h); simpl; intros Hnot; [right; by split | by left].
    + left. by rewrite list_lookup_alter_ne.
Qed.

Lemma link_rounds_left (group_name host_name : string) (r : ref) (i : nat) (s : state) :
  (i < length (list_at s r))%nat →
  returns (link group_name host_name) s (λ _ s',
    (rounds_left group_name r (S i) s' < rounds_left group_name r i s)%nat).
Proof.
  intros Hi. eapply returns_mono; [apply (link_list_at _ _ r)|].
  intros [] s' [Heq|[Hnot Heq]]; unfold rounds_left; rewrite Heq.
  - lia.
  - rewrite (bool_decide_eq_false_2 _ Hnot).
    rewrite bool_decide_eq_true_2 by (apply elem_of_app; right; by apply list_elem_of_singleton).
    rewrite length_app. simpl. lia.
Qed.

Lemma returns_and {S A} (m : Py S A) (s : S) (Q1 Q2 : A → S → Prop) :
  returns m s Q1 → returns m s Q2 → returns m s (λ a s', Q1 a s' ∧ Q2 a s').
Proof.
  intros (a & s' & Hm & H1) (a' & s'' & Hm' & H2).
  rewrite Hm in Hm'. simplify_eq. by exists a', s''.
Qed.

(** The loop of [load_group] never runs out of its budget; an invariant of
    [link] holds at the end, for an iterator that went past the end of the
    list. *)
Lemma load_group_spec (entry : string * group_data) (I : nat → state → Prop) (s : state) :
  (∀ r i x s1, gd_hosts entry.2 = Some r → I i s1 → list_at s1 r !! i = Some x →
     returns (link entry.1 x) s1 (λ _ s2, I (S i) s2)) →
  I 0%nat s →
  returns (load_group entry) s (λ _ s',
    match gd_hosts entry.2 with
    | Some r => ∃ j, I j s' ∧ (length (list_at s' r) ≤ j)%nat
    | None => s' = s
    end).
Proof.
  intros Hlink HI. unfold load_group.
  destruct (gd_hosts entry.2) as [r|] eqn:Hr; [|by apply returns_ret].
  apply returns_bind, returns_gets. fold (list_at s r).
  apply (returns_for_in r (link entry.1) I (rounds_left entry.1 r)).
  - intros i x s1 HI1 Hx. apply returns_and; [by eapply Hlink|].
    apply link_rounds_left. by eapply lookup_lt_Some.
  - done.
  - unfold rounds_left. case_bool_decide; lia.
Qed.

(** *** The two passes of [from_yaml] *)

Lemma load_host_spec (entry : string * host_data) (s : state) :
  complete entry.2 →
  returns (load_host entry) s (λ _ s',
    ∃ h, hosts s' = <[entry.1 := h]> (hosts s) ∧
      (∃ extra, lists s' = lists s ++ extra ∧ Forall (λ l, l = []) extra) ∧
      (keeps_entry_list entry.2 s (Host.groups h)
       ∨ (length (lists s) ≤ Host.groups h < length (lists s'))%nat
         ∧ ∀ r, hd_groups entry.2 = Some r → list_at s r = []) ∧
      (∀ g, g ∈ list_at s' (Host.groups h) → entry.1 ∈ members s' g) ∧
      (∀ g m, m ∈ members s g → m ∈ members s' g) ∧
      (∀ g m, m ∈ members s' g →
         m ∈ members s g ∨ (m = entry.1 ∧ g ∈ list_at s' (Host.groups h)))).
Proof.
  intros [[hn Hhn] [un Hun]]. unfold load_host.
  apply returns_bind. eapply returns_mono; [by apply from_dict_spec|].
  intros h s1 (Hh1 & Hg1 & Hext & _ & _ & Hkeep).
  eapply returns_mono; [apply add_host_spec|].
  intros [] s2 (Hl2 & Hh2 & Hin & Hup & Hdown).
  assert (∀ g, members s1 g = members s g) as Hm.
  { intros g. unfold members. by rewrite Hg1. }
  assert (∀ r, list_at s2 r = list_at s1 r) as Hat.
  { intros r. unfold list_at. by rewrite Hl2. }
  exists h. split_and!.
  - by rewrite Hh2, Hh1.
  - by rewrite Hl2.
  - by rewrite Hl2.
  - intros g. rewrite Hat. apply Hin.
  - intros g m. rewrite <- Hm. apply Hup.
  - intros g m. rewrite <- Hm, Hat. apply Hdown.
Qed.

Lemma load_hosts_known (entries : list (string * host_data)) (s : state) :
  (∀ entry, entry ∈ entries → complete entry.2) →
  members_known s →
  returns (for_each entries load_host) s (λ _ s',
    members_known s' ∧
    ∀ n, is_Some (hosts s' !! n) → is_Some (hosts s !! n) ∨ n ∈ entries.*1).
Proof.
  intros Hcomplete Hknown.
  apply (returns_for_each load_host (λ done_ s',
    members_known s' ∧
    ∀ n, is_Some (hosts s' !! n) → is_Some (hosts s !! n) ∨ n ∈ done_.*1));
    [|split; auto].
  intros done_ entry todo s1 -> [Hk Hdom].
  eapply returns_mono.
  { apply load_host_spec, Hcomplete, elem_of_app. right. by left. }
  intros [] s2 (h & Hh & _ & _ & _ & _ & Hdown). split.
  - intros g m Hm. rewrite Hh.
    destruct (Hdown g m Hm) as [Hold|[-> _]].
    + destruct (decide (m = entry.1)) as [->|]; [by rewrite lookup_insert_eq|].
      rewrite lookup_insert_ne by done. eauto.
    + by rewrite lookup_insert_eq.
  - intros n. rewrite Hh, fmap_app, elem_of_app. simpl.
    destruct (decide (n = entry.1)) as [->|].
    + intros _. right. right. by apply list_elem_of_singleton.
    + rewrite lookup_insert_ne by done. intros Hn.
      destruct (Hdom n Hn); auto.
Qed.

Lemma link_known (group_name host_name : string) (s : state) :
  members_known s →
  returns (link group_name host_name) s (λ _ s',
    members_known s' ∧ hosts s' = hosts s).
Proof.
  intros Hknown. eapply returns_mono; [apply link_spec|].
  intros [] s' [Hh [(_ & Hg & _)|(h & Hhost & _ & _ & Hg)]]; (split; [|done]).
  - intros g m. unfold members. rewrite Hg, Hh. apply Hknown.
  - intros g m. unfold members at 1. rewrite Hg, Hh.
    destruct (decide (g = group_name)) as [->|].
    + rewrite lookup_insert_eq. simpl.
      intros [?| ->%list_elem_of_singleton]%elem_of_app; [by eapply Hknown | eauto].
    + rewrite lookup_insert_ne by done. apply Hknown.
Qed.

Lemma load_groups_known (entries : list (string * group_data)) (s : state) :
  members_known s →
  returns (for_each entries load_group) s (λ _ s',
    members_known s' ∧ hosts s' = hosts s).
Proof.
  intros Hknown.
  apply (returns_for_each load_group (λ _ s', members_known s' ∧ hosts s' = hosts s));
    [|done].
  intros _ entry _ s1 _ [Hk Hh].
  eapply returns_mono.
  - apply (load_group_spec entry (λ _ s', members_known s' ∧ hosts s' = hosts s)); [|done].
    intros r i x s2 _ [Hk2 Hh2] _.
    eapply returns_mono; [by apply link_known|].
    intros [] s3 [? Hh3]. split; [done | congruence].
  - intros [] s2. simpl. destruct (gd_hosts entry.2).
    + by intros (_ & ? & _).
    + by intros ->.
Qed.

(** [from_yaml] in terms of its two loops. *)
Lemma from_yaml_parsed (path : string) (d : document) :
  from_yaml path (inr d) =
  let failed e s :=
    (Raise (InventoryError (FailedToLoad e)),
     {| lists := lists s; hosts := hosts s; groups := groups s;
        log := log s ++ [(ERROR, LoadFailed path e)] |}) in
  match for_each (doc_hosts d) load_host (set_lists (λ _, doc_lists d) Inventory.init) with
  | (Return _, s1) =>
      match for_each (doc_groups d) load_group s1 with
      | (Return _, s2) =>
          (Return tt,
           {| lists := lists s2; hosts := hosts s2; groups := groups s2;
              log := (log s2 ++ [(INFO, LoadedInventory path)]) ++
                     [(DEBUG, LoadedCounts (size (hosts s2)) (size (groups s2)))] |})
      | (Raise e, s2) => failed e s2
      | (OutOfFuel, s2) => (OutOfFuel, s2)
      end
  | (Raise e, s1) => failed e s1
  | (OutOfFuel, s1) => (OutOfFuel, s1)
  end.
Proof.
  unfold from_yaml, try_except, Inventory.logger, modify, gets, raise,
    mbind, mret, py_bind, py_ret. simpl.
  destruct (for_each (doc_hosts d) load_host _) as [[[]|e|] s1]; [|done..].
  by destruct (for_each (doc_groups d) load_group s1) as [[[]|e|] s2].
Qed.

Lemma load_host_raises (entry : string * host_data) (s : state) :
  ¬ complete entry.2 → ∃ key, load_host entry s = (Raise (KeyError key), s).
Proof.
  intros Hmiss. unfold load_host.
  destruct (from_dict_raises entry.2 s) as [key Hkey].
  { unfold complete in Hmiss.
    destruct (hd_hostname entry.2), (hd_username entry.2); auto.
    exfalso. apply Hmiss. eauto. }
  exists key. unfold mbind, py_bind. by rewrite Hkey.
Qed.

Lemma load_hosts_raises (entries : list (string * host_data)) (entry : string * host_data)
    (s : state) :
  entry ∈ entries → ¬ complete entry.2 →
  ∃ key s', for_each entries load_host s = (Raise (KeyError key), s').
Proof.
  intros Hin Hmiss. revert s.
  induction entries as [|e entries IH]; intros s; [by apply elem_of_nil in Hin|].
  simpl. unfold mbind, py_bind.
  destruct (decide (complete e.2)) as [Hc|Hc].
  - destruct (load_host_spec e s Hc) as ([] & s' & -> & _).
    apply IH. apply elem_of_cons in Hin as [->|]; done.
  - destruct (load_host_raises e s Hc) as [key ->]. eauto.
Qed.

(** *** The claims about the inventory *)

(** C6: a document with a host entry that has no [hostname] or no
    [username] makes [from_yaml] raise [InventoryError], wrapping the
    [KeyError] of the missing field. *)
Theorem from_yaml_missing_required_field (path : string) (d : document)
    (name : string) (data : host_data) :
  (name, data) ∈ doc_hosts d →
  hd_hostname data = None ∨ hd_username data = None →
  ∃ key s, from_yaml path (inr d) = (Raise (InventoryError (FailedToLoad (KeyError key))), s).
Proof.
  intros Hin Hmiss. rewrite from_yaml_parsed.
  destruct (load_hosts_raises (doc_hosts d) (name, data)
              (set_lists (λ _, doc_lists d) Inventory.init) Hin) as (key & s1 & ->).
  - intros [[? ?] [? ?]]. simpl in *. destruct Hmiss; congruence.
  - simpl. eauto.
Qed.

(** C9: looking up a missing host, or a missing group, raises
    [InventoryError] and leaves the store as it was. *)
Theorem lookup_of_missing_name (s : state) (name : string) :
  (hosts s !! name = None →
     get_host name s = (Raise (InventoryError (HostNotFound name)), s)) ∧
  (groups s !! name = None →
     get_group_hosts name s = (Raise (InventoryError (GroupNotFound name)), s)).
Proof.
  split; intros Hnone.
  - unfold get_host, mbind, py_bind, gets. by rewrite Hnone.
  - unfold get_group_hosts, mbind, py_bind, gets. by rewrite Hnone.
Qed.

(** C8, as amended: in a document whose host entries all have their
    required fields, a name listed under a group without being a host entry
    does no harm:
    [from_yaml] returns, the name is no host of the inventory and no member
    of any of its groups. *)
Theorem unknown_group_member_is_skipped (path : string) (d : document)
    (group_name : string) (gd : group_data) (r : ref) (listed : list string)
    (name : string) :
  (∀ entry, entry ∈ doc_hosts d → complete entry.2) →
  (group_name, gd) ∈ doc_groups d → gd_hosts gd = Some r →
  doc_lists d !! r = Some listed → name ∈ listed →
  name ∉ (doc_hosts d).*1 →
  ∃ s, from_yaml path (inr d) = (Return tt, s) ∧
       hosts s !! name = None ∧
       (∀ g ms, groups s !! g = Some ms → name ∉ ms) ∧
       get_host name s = (Raise (InventoryError (HostNotFound name)), s).
Proof.
  intros Hcomplete _ _ _ _ Hunknown. rewrite from_yaml_parsed.
  destruct (load_hosts_known (doc_hosts d) (set_lists (λ _, doc_lists d) Inventory.init) Hcomplete)
    as ([] & s1 & -> & Hk1 & Hdom1).
  { intros g m. unfold members. simpl. rewrite lookup_empty. by intros ?%elem_of_nil. }
  destruct (load_groups_known (doc_groups d) s1 Hk1) as ([] & s2 & -> & Hk2 & Hh2).
  simpl. eexists. split; [reflexivity|]. simpl.
  assert (hosts s2 !! name = None) as Hnone.
  { apply eq_None_not_Some. rewrite Hh2. intros Hsome.
    destruct (Hdom1 name Hsome) as [Hempty|?]; [|done].
    simpl in Hempty. rewrite lookup_empty in Hempty. by destruct Hempty. }
  split_and!.
  - done.
  - intros g ms Hg Hin. apply lookup_members in Hg.
    destruct (Hk2 g name) as [h Hh]; [by rewrite Hg|]. congruence.
  - unfold get_host, mbind, py_bind, gets. simpl. by rewrite Hnone.
Qed.

(** C1 fails on a document in which two host entries share one list of
    groups: [web2] is described as a member of [webservers], it is loaded
    and its group list says [webservers], but the hosts of [webservers] are
    [web1] alone. *)
Theorem aliased_groups_break_membership :
  let run := from_yaml "inventory.yaml" (inr aliased_inventory) in
  let s := run.2 in
  run.1 = Return tt ∧
  (∃ h, get_host "web2" s = (Return h, s) ∧
        list_at s (Host.groups h) = ["production"; "webservers"] ∧
        ∃ hs, get_group_hosts "webservers" s = (Return hs, s) ∧ h ∉ hs) ∧
  groups s !! "webservers" = Some ["web1"].
Proof.
  vm_compute. split; [done|]. split; [|done].
  eexists. split; [reflexivity|]. split; [reflexivity|].
  eexists. split; [reflexivity|].
  intros Hin. apply list_elem_of_singleton in Hin. discriminate.
Qed.

Lemma from_yaml_missing_required_field_witness :
  ∃ key s, from_yaml "inventory.yaml" (inr inventory_without_username)
           = (Raise (InventoryError (FailedToLoad (KeyError key))), s).
Proof.
  apply (from_yaml_missing_required_field _ inventory_without_username "db1"
           (host_entry (Some "db1.example.com") None None)).
  - apply elem_of_cons. right. apply elem_of_cons. by left.
  - by right.
Defined.

Lemma lookup_of_missing_name_witness :
  get_host "missing" Inventory.init
    = (Raise (InventoryError (HostNotFound "missing")), Inventory.init) ∧
  get_group_hosts "missing" Inventory.init
    = (Raise (InventoryError (GroupNotFound "missing")), Inventory.init).
Proof.
  split.
  - apply (proj1 (lookup_of_missing_name Inventory.init "missing")). reflexivity.
  - apply (proj2 (lookup_of_missing_name Inventory.init "missing")). reflexivity.
Defined.

Lemma unknown_group_member_is_skipped_witness :
  ∃ s, from_yaml "inventory.yaml" (inr inventory_with_unknown_member) = (Return tt, s) ∧
       hosts s !! "ghost" = None.
Proof.
  destruct (unknown_group_member_is_skipped "inventory.yaml" inventory_with_unknown_member
              "webservers" (group_entry (Some 1%nat)) 1%nat ["web1"; "ghost"] "ghost")
    as (s & Hrun & Hnone & _).
  - intros entry ->%list_elem_of_singleton. split; by eexists.
  - by apply list_elem_of_singleton.
  - reflexivity.
  - reflexivity.
  - apply elem_of_cons. right. by apply list_elem_of_singleton.
  - simpl. intros Hin%list_elem_of_singleton. discriminate.
  - by exists s.
Defined.

(** C8, as stated, fails: the group [webservers] lists [ghost], which is no
    host entry, and [from_yaml] raises all the same, because the host entry
    [web1] has no username. *)
Lemma unknown_group_member_beside_incomplete_host :
  let d := inventory_with_unknown_member_and_incomplete_host in
  ("webservers", group_entry (Some 0%nat)) ∈ doc_groups d ∧
  doc_lists d !! O = Some ["web1"; "ghost"] ∧
  ("ghost" ∉ (doc_hosts d).*1) ∧
  (from_yaml "inventory.yaml" (inr d)).1
    = Raise (InventoryError (FailedToLoad (KeyError "username"))).
Proof.
  split_and!.
  - by apply list_elem_of_singleton.
  - reflexivity.
  - simpl. intros Hin%list_elem_of_singleton. discriminate.
  - vm_compute. reflexivity.
Qed.

(** *** Documents without shared lists

    When no two host entries hold the same list object for [groups], the
    loader keeps both directions of membership. *)

Lemma grown_refl (s : state) : grown s s.
Proof. by intros r. Qed.

Lemma grown_trans (s1 s2 s3 : state) : grown s1 s2 → grown s2 s3 → grown s1 s3.
Proof. intros H12 H23 r. by trans (list_at s2 r). Qed.

Lemma grown_elem (s s' : state) (r : ref) (x : string) :
  grown s s' → x ∈ list_at s r → x ∈ list_at s' r.
Proof. intros Hg Hx. destruct (Hg r) as [k ->]. apply elem_of_app. by left. Qed.

Lemma list_at_alter (s : state) (f : list string → list string) (r r' : ref) :
  (r < length (lists s))%nat →
  default [] (alter f r (lists s) !! r') =
  if decide (r = r') then f (list_at s r) else list_at s r'.
Proof.
  intros Hr. unfold list_at. case_decide as Heq.
  - subst r'. rewrite list_lookup_alter_eq.
    destruct (lookup_lt_is_Some_2 (lists s) r Hr) as [l ->]. done.
  - by rewrite list_lookup_alter_ne.
Qed.

Lemma link_linked (group_name host_name : string) (s : state) :
  linked s →
  returns (link group_name host_name) s (λ _ s',
    linked s' ∧ hosts s' = hosts s ∧ grown s s' ∧
    ∀ h, hosts s !! host_name = Some h → group_name ∈ list_at s' (Host.groups h)).
Proof.
  intros (Hbound & Hsep & Hfwd). eapply returns_mono; [apply link_spec|].
  intros [] s' [Hh [(Hl & Hg & Hin)|(h & Hhost & Hnot & Hl & Hg)]].
  - assert (∀ r, list_at s' r = list_at s r) as Hat by (intros; unfold list_at; by rewrite Hl).
    assert (∀ g, members s' g = members s g) as Hm by (intros; unfold members; by rewrite Hg).
    split_and!; [split_and!| done | |].
    + intros n h'. rewrite Hh, Hl. apply Hbound.
    + intros n1 n2 h1 h2. rewrite Hh. apply Hsep.
    + intros n h' g. rewrite Hh, Hat, Hm. apply Hfwd.
    + intros r. by rewrite Hat.
    + intros h' Hh'. rewrite Hat. by apply Hin.
  - pose proof (Hbound _ _ Hhost) as Hr.
    assert (∀ r, list_at s' r = if decide (Host.groups h = r)
                               then list_at s (Host.groups h) ++ [group_name]
                               else list_at s r) as Hat.
    { intros r. unfold list_at at 1. rewrite Hl. by apply list_at_alter. }
    assert (∀ g m, m ∈ members s g → m ∈ members s' g) as Hup.
    { intros g m. unfold members at 2. rewrite Hg.
      destruct (decide (g = group_name)) as [->|].
      - rewrite lookup_insert_eq. simpl. intros. apply elem_of_app. by left.
      - by rewrite lookup_insert_ne. }
    assert (host_name ∈ members s' group_name) as Hnew.
    { unfold members at 1. rewrite Hg, lookup_insert_eq. simpl.
      apply elem_of_app. right. by apply list_elem_of_singleton. }
    split_and!; [split_and!| done | |].
    + intros n h'. rewrite Hh, Hl, length_alter. apply Hbound.
    + intros n1 n2 h1 h2. rewrite Hh. apply Hsep.
    + intros n h' g. rewrite Hh, Hat. intros Hn. case_decide as Heq.
      * assert (n = host_name) as -> by (by eapply Hsep).
        intros [Hold| ->%list_elem_of_singleton]%elem_of_app; [|done].
        apply Hup, (Hfwd _ h'); [done|]. by rewrite <- Heq.
      * intros Hin. by apply Hup, (Hfwd _ h').
    + intros r. rewrite Hat. case_decide as Heq; [|done].
      subst r. by apply prefix_app_r.
    + intros h' Hh'. assert (h' = h) as -> by congruence.
      rewrite Hat, decide_True by done.
      apply elem_of_app. right. by apply list_elem_of_singleton.
Qed.

Lemma load_group_linked (entry : string * group_data) (s0 s : state) :
  linked s → hosts s = hosts s0 → grown s0 s →
  returns (load_group entry) s (λ _ s',
    linked s' ∧ hosts s' = hosts s0 ∧ grown s s' ∧
    listed_are_linked [entry] s0 s').
Proof.
  intros Hlinked Hhosts Hgrown.
  set (I := λ (i : nat) (s2 : state),
    linked s2 ∧ hosts s2 = hosts s0 ∧ grown s s2 ∧
    ∀ r j x h, gd_hosts entry.2 = Some r → (j < i)%nat →
      list_at s2 r !! j = Some x → hosts s0 !! x = Some h →
      entry.1 ∈ list_at s2 (Host.groups h)).
  eapply returns_mono.
  - apply (load_group_spec entry I).
    + intros r i x s2 Hr (Hl2 & Hh2 & Hg2 & Hvisited) Hx.
      eapply returns_mono; [by apply link_linked|].
      intros [] s3 (Hl3 & Hh3 & Hg3 & Hnew). split_and!.
      * done.
      * congruence.
      * by eapply grown_trans.
      * intros r' j x' h Hr' Hj Hx' Hh. assert (r' = r) as -> by congruence.
        assert (list_at s2 r !! j = Some x') as Hx2.
        { rewrite (prefix_lookup_lt _ (list_at s3 r)); [done | | apply Hg3].
          apply lookup_lt_Some in Hx. lia. }
        destruct (decide (j = i)) as [->|].
        -- assert (x' = x) as -> by congruence. apply Hnew. by rewrite Hh2.
        -- eapply grown_elem; [done|]. eapply Hvisited; [done | | done..]. lia.
    + split_and!; [done | done | apply grown_refl |]. intros ????? Hj. lia.
  - intros [] s'. simpl. destruct (gd_hosts entry.2) as [r|] eqn:Hr.
    + intros (j & (Hl' & Hh' & Hg' & Hvisited) & Hj). split_and!; [done..|].
      intros entry' r' x h ->%list_elem_of_singleton Hr' Hx Hh.
      assert (r' = r) as -> by congruence.
      apply list_elem_of_lookup in Hx as [k Hk].
      eapply (Hvisited r k); [done | | | done].
      * apply lookup_lt_Some in Hk.
        pose proof (prefix_length _ _ (Hgrown r)).
        pose proof (prefix_length _ _ (Hg' r)). lia.
      * eapply prefix_lookup_Some; [|apply Hg'].
        eapply prefix_lookup_Some; [done | apply Hgrown].
    + intros ->. split_and!; [done | done | apply grown_refl |].
      intros entry' r' x h ->%list_elem_of_singleton Hr'. congruence.
Qed.

Lemma load_groups_linked (entries : list (string * group_data)) (s : state) :
  linked s →
  returns (for_each entries load_group) s (λ _ s',
    linked s' ∧ hosts s' = hosts s ∧ grown s s' ∧ listed_are_linked entries s s').
Proof.
  intros Hlinked.
  apply (returns_for_each load_group (λ done_ s',
    linked s' ∧ hosts s' = hosts s ∧ grown s s' ∧ listed_are_linked done_ s s')).
  - intros done_ entry todo s1 _ (Hl1 & Hh1 & Hg1 & Hdone).
    eapply returns_mono; [by apply (load_group_linked entry s)|].
    intros [] s2 (Hl2 & Hh2 & Hg2 & Hentry). split_and!; [done | done | |].
    + by eapply grown_trans.
    + intros entry' r x h [Hin|Hin]%elem_of_app Hr Hx Hh.
      * eapply grown_elem; [done|]. by eapply Hdone.
      * by eapply Hentry.
  - split_and!; [done | done | apply grown_refl |].
    intros ???? []%elem_of_nil.
Qed.

Lemma padded_list_at (d : document) (s : state) (r : ref) :
  padded d s → list_at s r = default [] (doc_lists d !! r).
Proof.
  intros (extra & Hl & Hextra). unfold list_at. rewrite Hl.
  destruct (decide (r < length (doc_lists d))%nat).
  - by rewrite lookup_app_l.
  - rewrite lookup_app_r, (lookup_ge_None_2 (doc_lists d)) by lia. simpl.
    destruct (extra !! _) as [l|] eqn:Hlook; [|done]. simpl.
    by eapply (Forall_lookup_1 _ _ _ _ Hextra).
Qed.

Lemma load_host_linked (d : document) (done_ todo : list (string * host_data))
    (entry : string * host_data) (s : state) :
  NoDup (done_ ++ entry :: todo).*1 →
  NoDup (entry_lists (done_ ++ entry :: todo)) →
  complete entry.2 →
  hosts_loaded d done_ s →
  returns (load_host entry) s (λ _ s', hosts_loaded d (done_ ++ [entry]) s').
Proof.
  intros Hnames Hrefs Hcomplete ((Hbound & Hsep & Hfwd) & Hpad & Horigin & Hdone).
  destruct entry as [n data]. simpl in *.
  assert (hosts s !! n = None) as Hfresh_name.
  { apply eq_None_not_Some. intros [h Hh].
    destruct (Horigin n h Hh) as (data' & Hin & _).
    rewrite fmap_app in Hnames. apply NoDup_app in Hnames as (_ & Hdisj & _).
    apply (Hdisj n).
    - apply list_elem_of_fmap. by exists (n, data').
    - simpl. by left. }
  eapply returns_mono; [by apply load_host_spec|].
  intros [] s' (h & Hh' & (extra' & Hl' & Hextra') & Hkeep & Hnew & Hup & _). simpl in *.
  assert (padded d s') as Hpad'.
  { destruct Hpad as (extra & Hl & Hextra). exists (extra ++ extra').
    rewrite Hl', Hl, <- app_assoc. split; [done|]. by apply Forall_app. }
  assert (length (doc_lists d) ≤ length (lists s))%nat as Hlen.
  { destruct Hpad as (extra & -> & _). rewrite length_app. lia. }
  assert (length (lists s) ≤ length (lists s'))%nat as Hlen'.
  { rewrite Hl', length_app. lia. }
  assert (∀ r, list_at s r ≠ [] → (r < length (doc_lists d))%nat) as Hnonempty.
  { intros r. rewrite (padded_list_at d) by done. intros Hne.
    apply lookup_lt_is_Some. by destruct (doc_lists d !! r); [eexists|]. }
  (* where the list of the new host comes from *)
  assert ((hd_groups data = Some (Host.groups h)
           ∧ (Host.groups h < length (doc_lists d))%nat)
          ∨ (length (lists s) ≤ Host.groups h < length (lists s'))%nat
            ∧ ∀ r, hd_groups data = Some r → list_at s r = []) as Hwhere.
  { destruct Hkeep as [[Hr Hne]|?]; [left|by right]. split; [done|]. by apply Hnonempty. }
  split_and!; [split_and! | done | |].
  - (* bound *)
    intros n' h'. rewrite Hh'. destruct (decide (n' = n)) as [->|].
    + rewrite lookup_insert_eq. intros [= <-]. destruct Hwhere as [[_ ?]|[? _]]; lia.
    + rewrite lookup_insert_ne by done. intros Hn'%Hbound. lia.
  - (* sep *)
    assert (∀ n' h', n' ≠ n → hosts s !! n' = Some h' →
              Host.groups h ≠ Host.groups h') as Hdiff.
    { intros n' h' Hne Hn' Heq.
      destruct Hwhere as [[Hr Hlt]|[Hge _]].
      - destruct (Horigin n' h' Hn') as (data' & Hin' & [[Hr' _]|Hge']); [|lia].
        unfold entry_lists in Hrefs. rewrite omap_app in Hrefs.
        apply NoDup_app in Hrefs as (_ & Hdisj & _).
        apply (Hdisj (Host.groups h)).
        + apply list_elem_of_omap. exists (n', data'). split; [done|]. simpl. congruence.
        + simpl. rewrite Hr. by left.
      - apply Hbound in Hn'. lia. }
    intros n1 n2 h1 h2. rewrite Hh'.
    destruct (decide (n1 = n)) as [->|], (decide (n2 = n)) as [->|]; [done|..].
    + rewrite lookup_insert_eq, lookup_insert_ne by done.
      intros [= <-] Hn2 Heq. by destruct (Hdiff n2 h2).
    + rewrite lookup_insert_eq, lookup_insert_ne by done.
      intros Hn1 [= <-] Heq. by destruct (Hdiff n1 h1).
    + rewrite !lookup_insert_ne by done. apply Hsep.
  - (* fwd *)
    intros n' h' g. rewrite Hh'. destruct (decide (n' = n)) as [->|].
    + rewrite lookup_insert_eq. intros [= <-]. apply Hnew.
    + rewrite lookup_insert_ne by done. intros Hn' Hg. apply Hup, (Hfwd _ h'); [done|].
      by rewrite (padded_list_at d) in * by done.
  - (* origin *)
    intros n' h'. rewrite Hh'. destruct (decide (n' = n)) as [->|].
    + rewrite lookup_insert_eq. intros [= <-]. exists data. split.
      * apply elem_of_app. right. by left.
      * destruct Hwhere as [?|[? _]]; [by left | right; lia].
    + rewrite lookup_insert_ne by done. intros Hn'.
      destruct (Horigin n' h' Hn') as (data' & ? & ?). exists data'. split; [|done].
      apply elem_of_app. by left.
  - (* done *)
    intros n' data' [Hin|[= -> ->]%list_elem_of_singleton]%elem_of_app.
    + destruct (Hdone n' data' Hin) as (h' & Hn' & Hr'). exists h'. split; [|done].
      rewrite Hh', lookup_insert_ne; [done|]. intros <-. congruence.
    + exists h. rewrite Hh', lookup_insert_eq. split; [done|].
      intros r Hr Hne. destruct Hwhere as [[Hr' _]|[_ Hempty]]; [congruence|].
      destruct Hne. rewrite <- (padded_list_at d s) by done. by apply Hempty.
Qed.

Lemma load_hosts_linked (d : document) :
  NoDup (doc_hosts d).*1 →
  NoDup (entry_lists (doc_hosts d)) →
  (∀ entry, entry ∈ doc_hosts d → complete entry.2) →
  returns (for_each (doc_hosts d) load_host) (set_lists (λ _, doc_lists d) Inventory.init)
    (λ _ s', hosts_loaded d (doc_hosts d) s').
Proof.
  intros Hnames Hrefs Hcomplete.
  apply (returns_for_each load_host (hosts_loaded d)).
  - intros done_ entry todo s Hsplit Hloaded. rewrite Hsplit in Hnames, Hrefs.
    apply (load_host_linked d done_ todo); [done..| |done].
    apply Hcomplete. rewrite Hsplit. apply elem_of_app. right. by left.
  - split_and!; [split_and!| | |].
    + intros n h. simpl. by rewrite lookup_empty.
    + intros n1 n2 h1 h2. simpl. by rewrite lookup_empty.
    + intros n h g. simpl. by rewrite lookup_empty.
    + exists []. simpl. by rewrite app_nil_r.
    + intros n h. simpl. by rewrite lookup_empty.
    + intros n data []%elem_of_nil.
Qed.

Lemma hosts_of_names_spec (hs : gmap string Host.t) (names : list string) (s : state) :
  (∀ m, m ∈ names → is_Some (hs !! m)) →
  ∃ l, hosts_of_names hs names s = (Return l, s) ∧
       ∀ m h, m ∈ names → hs !! m = Some h → h ∈ l.
Proof.
  induction names as [|n names IH]; intros Hknown; simpl.
  - exists []. split; [done|]. by intros ?? ?%elem_of_nil.
  - destruct (Hknown n) as [h Hh]; [by left|].
    destruct IH as (l & Hl & Hall). { intros m Hm. apply Hknown. by right. }
    exists (h :: l). unfold mbind, py_bind, subscript. rewrite Hh. simpl. rewrite Hl.
    split; [done|]. intros m h' [->|Hm]%elem_of_cons Hh'.
    + assert (h' = h) as -> by congruence. by left.
    + right. by eapply Hall.
Qed.

(** X18 (from_yaml, both directions of membership): for a document with one
    entry per host name whose host entries do not share a list object, a
    host described as a member of a group has the group in its own list and
    is among the hosts of the group. *)
Theorem membership_without_shared_lists (path : string) (d : document)
    (name : string) (data : host_data) (g : string) (s : state) :
  NoDup (doc_hosts d).*1 →
  NoDup (entry_lists (doc_hosts d)) →
  (name, data) ∈ doc_hosts d →
  described_in d name data g →
  from_yaml path (inr d) = (Return tt, s) →
  ∃ h hs, get_host name s = (Return h, s) ∧
          g ∈ list_at s (Host.groups h) ∧
          get_group_hosts g s = (Return hs, s) ∧ h ∈ hs.
Proof.
  intros Hnames Hrefs Hentry Hdesc Hrun.
  assert (∀ entry, entry ∈ doc_hosts d → complete entry.2) as Hcomplete.
  { intros entry Hin. destruct (decide (complete entry.2)) as [|Hmiss]; [done|].
    destruct (load_hosts_raises (doc_hosts d) entry
                (set_lists (λ _, doc_lists d) Inventory.init) Hin Hmiss) as (key & s' & Hraise).
    rewrite from_yaml_parsed, Hraise in Hrun. discriminate. }
  rewrite from_yaml_parsed in Hrun.
  set (s0 := set_lists (λ _, doc_lists d) Inventory.init) in *.
  destruct (returns_and _ s0 _ _ (load_hosts_linked d Hnames Hrefs Hcomplete)
              (load_hosts_known (doc_hosts d) s0 Hcomplete
                 ltac:(intros ??; unfold members; simpl; rewrite lookup_empty;
                       by intros ?%elem_of_nil)))
    as ([] & s1 & Hrun1 & (Hlinked1 & Hpad1 & _ & Hdone1) & Hknown1 & _).
  rewrite Hrun1 in Hrun.
  destruct (returns_and _ s1 _ _ (load_groups_linked (doc_groups d) s1 Hlinked1)
              (load_groups_known (doc_groups d) s1 Hknown1))
    as ([] & s2 & Hrun2 & (Hlinked2 & Hhosts2 & Hgrown2 & Hlisted2) & Hknown2 & _).
  rewrite Hrun2 in Hrun. injection Hrun as <-.
  destruct (Hdone1 name data Hentry) as (h & Hh & Hkept).
  assert (g ∈ list_at s2 (Host.groups h)) as Hg.
  { destruct Hdesc as [(r & l & Hr & Hl & Hin)|(gd & r & l & Hgd & Hr & Hl & Hin)].
    - eapply grown_elem; [done|].
      rewrite <- (Hkept r) in Hl; [|done | rewrite Hl; simpl; by destruct Hin].
      by rewrite (padded_list_at d), Hl.
    - apply (Hlisted2 (g, gd) r name h); [done..| |done].
      by rewrite (padded_list_at d), Hl. }
  destruct Hlinked2 as (_ & _ & Hfwd2).
  assert (name ∈ members s2 g) as Hmember.
  { apply (Hfwd2 name h); [by rewrite Hhosts2 | done]. }
  apply members_lookup in Hmember as (ms & Hms & Hin).
  destruct (hosts_of_names_spec (hosts s2) ms
              {| lists := lists s2; hosts := hosts s2; groups := groups s2;
                 log := (log s2 ++ [(INFO, LoadedInventory path)]) ++
                        [(DEBUG, LoadedCounts (size (hosts s2)) (size (groups s2)))] |})
    as (hs & Hhs & Hall).
  { intros m Hm. apply (Hknown2 g). apply lookup_members in Hms. by rewrite Hms. }
  exists h, hs. split_and!.
  - unfold get_host, mbind, py_bind, gets. simpl. by rewrite Hhosts2, Hh.
  - done.
  - unfold get_group_hosts, mbind, py_bind, gets. simpl. by rewrite Hms.
  - apply (Hall name); [done|]. by rewrite Hhosts2.
Qed.

(** *** The step budget is never used up *)

Lemma load_hosts_outcome (entries : list (string * host_data)) (s : state) :
  (for_each entries load_host s).1 ≠ OutOfFuel.
Proof.
  revert s. induction entries as [|e entries IH]; intros s; [done|].
  simpl. unfold mbind, py_bind.
  destruct (decide (complete e.2)) as [Hc|Hc].
  - destruct (load_host_spec e s Hc) as ([] & s' & -> & _). apply IH.
  - by destruct (load_host_raises e s Hc) as [key ->].
Qed.

Lemma load_groups_returns (entries : list (string * group_data)) (s : state) :
  returns (for_each entries load_group) s (λ _ _, True).
Proof.
  apply (returns_for_each load_group (λ _ _, True)); [|done].
  intros _ entry _ s1 _ _.
  eapply returns_mono.
  - apply (load_group_spec entry (λ _ _, True)); [|done].
    intros r i x s2 _ _ _. eapply returns_mono; [apply link_spec | done].
  - done.
Qed.

(** [from_yaml] returns or raises: the budget given to the loop over a
    group's hosts is enough on every document. *)
Theorem from_yaml_terminates (path : string) (source : exn + document) :
  (from_yaml path source).1 ≠ OutOfFuel.
Proof.
  destruct source as [e|d]; [done|].
  rewrite from_yaml_parsed.
  pose proof (load_hosts_outcome (doc_hosts d) (set_lists (λ _, doc_lists d) Inventory.init))
    as Hhosts.
  destruct (for_each (doc_hosts d) load_host _) as [[[]|e|] s1]; [|done..].
  by destruct (load_groups_returns (doc_groups d) s1) as ([] & s2 & -> & _).
Qed.

Example example_inventory_groups :
  let s := (from_yaml "inventory.yaml" (inr example_inventory)).2 in
  groups s !! "production" = Some ["web1"; "db1"] ∧
  groups s !! "webservers" = Some ["web1"] ∧
  groups s !! "databases" = Some ["db1"].
Proof. vm_compute. done. Qed.

Lemma membership_without_shared_lists_witness :
  let s := (from_yaml "inventory.yaml" (inr example_inventory)).2 in
  ∃ h hs, get_host "db1" s = (Return h, s) ∧
          "production" ∈ list_at s (Host.groups h) ∧
          get_group_hosts "production" s = (Return hs, s) ∧ h ∈ hs.
Proof.
  intros s.
  apply (membership_without_shared_lists "inventory.yaml" example_inventory "db1"
           {| hd_hostname := Some "db1.example.com"; hd_username := Some "dbadmin";
              hd_password := Some "secure_password"; hd_key_file := None;
              hd_port := None; hd_groups := Some 1%nat;
              hd_variables := Some [("db_port", SInt 5432)] |}
           "production" s).
  - apply (bool_decide_unpack _). vm_compute. exact I.
  - apply (bool_decide_unpack _). vm_compute. exact I.
  - apply elem_of_cons. right. apply elem_of_cons. by left.
  - left. exists 1%nat, ["databases"; "production"]. split_and!; [reflexivity..|].
    apply elem_of_cons. right. by apply list_elem_of_singleton.
  - subst s. vm_compute. reflexivity.
Defined.


(** * Properties of the executor *)

Ltac py_unfold :=
  unfold execute, upload_file, download_file, close, ensure_connected, connect,
    invoke, Executor.logger, the_client, from_read, decoded, try_except,
    modify, gets, raise, mbind, mret, py_bind, py_ret in *;
  simpl in *.

(** Case analysis on the innermost scrutinee that is left in the goal. *)
Ltac destruct_inner :=
  match goal with
  | |- context [match ?x with _ => _ end] =>
      lazymatch x with
      | context [match _ with _ => _ end] => fail
      | _ => destruct x eqn:?
      end
  end.

Ltac py_cases := repeat (destruct_inner; simpl in *).

Lemma connection_attempts_app tr1 tr2 :
  connection_attempts (tr1 ++ tr2) = (connection_attempts tr1 + connection_attempts tr2)%nat.
Proof. unfold connection_attempts. by rewrite filter_app, length_app. Qed.

(** *** Strings and text *)

Lemma append_cons (c : Ascii.ascii) (s t : string) :
  String c s +:+ t = String c (s +:+ t).
Proof. reflexivity. Qed.

Lemma append_assoc (s1 s2 s3 : string) : (s1 +:+ s2) +:+ s3 = s1 +:+ s2 +:+ s3.
Proof.
  induction s1 as [|c s1 IH]; [done|].
  by rewrite !append_cons, IH.
Qed.

Lemma append_eq_empty (s1 s2 : string) : s1 +:+ s2 = "" → s1 = "" ∧ s2 = "".
Proof. destruct s1; [done|]. rewrite append_cons. discriminate. Qed.

Lemma assignment_nonempty (k v : string) : k +:+ "=" +:+ v ≠ "".
Proof. intros H. apply append_eq_empty in H as [_ H]. discriminate. Qed.

Lemma concat_assignments_empty (env : list (string * string)) :
  String.concat " " ((λ kv, kv.1 +:+ "=" +:+ kv.2) <$> env) = "" ↔ env = [].
Proof.
  split; [|by intros ->].
  destruct env as [|[k v] env]; [done|]. simpl. intros H.
  destruct env as [|kv env]; simpl in H.
  - by apply assignment_nonempty in H.
  - apply append_eq_empty in H as [H _]. by apply assignment_nonempty in H.
Qed.

(** The code tests the joined string, the specification the mapping: they
    agree because an assignment is never the empty string. *)
Lemma build_command_spec command sudo env :
  build_command command sudo env = spec_command command sudo (default [] env).
Proof.
  unfold build_command, spec_command.
  destruct (default [] env) as [|kv e] eqn:He.
  - simpl. by destruct sudo.
  - case_bool_decide as Hs.
    + apply concat_assignments_empty in Hs. discriminate.
    + rewrite append_assoc. by destruct sudo.
Qed.

Lemma lstrip_split (s : text) :
  ∃ lead, s = lead ++ lstrip s ∧ Forall (λ c, isspace c = true) lead ∧
          ∀ c, head (lstrip s) = Some c → isspace c = false.
Proof.
  induction s as [|c s (lead & Hs & Hl & Hh)]; simpl.
  - exists []. split_and!; [done | constructor | done].
  - destruct (isspace c) eqn:Hc.
    + exists (c :: lead). split_and!; [by rewrite Hs at 1 | by constructor | done].
    + exists []. split_and!; [done | constructor |]. simpl. by intros ? [= <-].
Qed.

Lemma strip_trimmed (s : text) : trimmed s (strip s).
Proof.
  unfold strip.
  destruct (lstrip_split s) as (lead & Hs & Hlead & Hhead).
  destruct (lstrip_split (reverse (lstrip s))) as (rtrail & Hr & Htrail & Hlast).
  exists lead, (reverse rtrail). split_and!.
  - rewrite <- reverse_app, <- Hr, reverse_involutive. done.
  - done.
  - by apply Forall_reverse.
  - intros c Hc. apply Hhead.
    apply (f_equal reverse) in Hr. rewrite reverse_involutive, reverse_app in Hr.
    rewrite Hr. destruct (reverse (lstrip (reverse (lstrip s)))); [done|]. done.
  - intros c Hc. apply Hlast. by rewrite last_reverse in Hc.
Qed.

(** [bytes.decode()] and [str.strip()] on a few inputs. *)
Example decode_ascii :
  decode [Byte.x20; Byte.x6f; Byte.x6b; Byte.x0a] = Some [0x20; 0x6F; 0x6B; 0x0A]%N.
Proof. vm_compute. reflexivity. Qed.

Example decode_two_bytes : decode [Byte.xc3; Byte.xa9] = Some [0xE9%N].
Proof. vm_compute. reflexivity. Qed.

Example decode_three_bytes : decode [Byte.xe2; Byte.x82; Byte.xac] = Some [0x20AC%N].
Proof. vm_compute. reflexivity. Qed.

Example decode_four_bytes :
  decode [Byte.xf0; Byte.x9f; Byte.x98; Byte.x80] = Some [0x1F600%N].
Proof. vm_compute. reflexivity. Qed.

Example decode_rejects :
  decode [Byte.xff] = None ∧ decode [Byte.xc0; Byte.x80] = None ∧
  decode [Byte.xe2; Byte.x82] = None ∧ decode [Byte.xed; Byte.xa0; Byte.x80] = None ∧
  decode [Byte.xf4; Byte.x90; Byte.x80; Byte.x80] = None.
Proof. vm_compute. by repeat split. Qed.

Example strip_unicode_space :
  strip [0x3000; 0x09; 0x6F; 0x20; 0x6B; 0x0A; 0xA0]%N = [0x6F; 0x20; 0x6B]%N.
Proof. vm_compute. reflexivity. Qed.

Section ExecutorFacts.
Context {transport : Transport}.

Lemma connect_trace (w : world) :
  let h := length (trace w) in
  let e := self w in
  let pre := [Called (NewClient h); Called (SetMissingHostKeyPolicy h);
              Logged INFO (Connecting (hostname e) (username e))] in
  client (self (connect w).2) = Some h ∧
  match fails (trace w ++ pre) (Connect h (connect_kwargs_of e)) with
  | None => (connect w).1 = Return tt ∧
      trace (connect w).2 = trace w ++ pre ++ [Called (Connect h (connect_kwargs_of e)); Logged INFO (Connected (hostname e))]
  | Some x => (connect w).1 = Raise (ExecutionError (ConnectionFailed x)) ∧
      trace (connect w).2 = trace w ++ pre ++ [Called (Connect h (connect_kwargs_of e)); Logged ERROR (ConnectFailed (hostname e) x)]
  end.
Proof.
  py_unfold. unfold connect_kwargs_of. simpl. rewrite <- !app_assoc. simpl.
  py_cases; simplify_eq; rewrite <- ?app_assoc; simpl; auto.
Qed.

Lemma execute_when_client_set command sudo env (w : world) h :
  client (self w) = Some h →
  ∃ new, trace (execute command sudo env w).2 = trace w ++ new ∧
         connection_attempts new = 0%nat ∧
         self (execute command sudo env w).2 = self w.
Proof.
  intros Hc. py_unfold. rewrite Hc. simpl. rewrite Hc. simpl.
  py_cases; rewrite <- ?app_assoc; (eexists; split; [reflexivity | by split]).
Qed.

Lemma upload_when_client_set l r m (w : world) h :
  client (self w) = Some h →
  ∃ new, trace (upload_file l r m w).2 = trace w ++ new ∧
         connection_attempts new = 0%nat.
Proof.
  intros Hc. py_unfold. rewrite Hc. simpl. rewrite Hc. simpl.
  py_cases; rewrite <- ?app_assoc; (eexists; split; [reflexivity | done]).
Qed.

Lemma download_when_client_set r l (w : world) h :
  client (self w) = Some h →
  ∃ new, trace (download_file r l w).2 = trace w ++ new ∧
         connection_attempts new = 0%nat.
Proof.
  intros Hc. py_unfold. rewrite Hc. simpl. rewrite Hc. simpl.
  py_cases; rewrite <- ?app_assoc; (eexists; split; [reflexivity | done]).
Qed.

(** C7: from a state without client, [execute] asks the transport for a
    session exactly once, and does so before any command is sent; from a
    state with a client it asks for none. *)
Theorem execute_connects_lazily (command : string) (sudo : bool)
    (env : option (list (string * string))) (w : world) :
  let tr' := trace (execute command sudo env w).2 in
  match client (self w) with
  | None =>
      ∃ pre h kwargs post,
        tr' = trace w ++ pre ++ Called (Connect h kwargs) :: post ∧
        connection_attempts pre = 0%nat ∧ sent_commands pre = [] ∧
        connection_attempts post = 0%nat
  | Some _ =>
      ∃ new, tr' = trace w ++ new ∧ connection_attempts new = 0%nat
  end.
Proof.
  destruct (client (self w)) as [h|] eqn:Hc.
  - destruct (execute_when_client_set command sudo env w h Hc) as (new & ? & ? & _).
    by exists new.
  - py_unfold. rewrite Hc. simpl. rewrite <- !app_assoc. simpl.
    py_cases; rewrite <- ?app_assoc; simpl;
      (eexists [_; _; _], _, _, _; split; [reflexivity | done]).
Qed.

(** C5: when [connect] raises, the error is an [ExecutionError] for a failed
    connection, the instance keeps the client object it created just before,
    and therefore [execute], [upload_file] and [download_file] called next
    ask for no session: the number of connection attempts stays as it is. *)
Theorem connect_failure_keeps_client (w : world) (e : exn) :
  (connect w).1 = Raise e →
  let w1 := (connect w).2 in
  (∃ cause, e = ExecutionError (ConnectionFailed cause)) ∧
  client (self w1) = Some (length (trace w)) ∧
  (∀ command sudo env,
     connection_attempts (trace (execute command sudo env w1).2)
     = connection_attempts (trace w1)) ∧
  (∀ l r m,
     connection_attempts (trace (upload_file l r m w1).2)
     = connection_attempts (trace w1)) ∧
  (∀ r l,
     connection_attempts (trace (download_file r l w1).2)
     = connection_attempts (trace w1)).
Proof.
  intros He w1.
  destruct (connect_trace w) as [Hc Hcases]. fold w1 in Hc.
  split_and!.
  - destruct (fails _ _) as [x|]; destruct Hcases as [Hres _];
      rewrite Hres in He; simplify_eq. by exists x.
  - done.
  - intros command sudo env.
    destruct (execute_when_client_set command sudo env w1 _ Hc) as (new & -> & Hn & _).
    rewrite connection_attempts_app. lia.
  - intros l r m.
    destruct (upload_when_client_set l r m w1 _ Hc) as (new & -> & Hn).
    rewrite connection_attempts_app. lia.
  - intros r l.
    destruct (download_when_client_set r l w1 _ Hc) as (new & -> & Hn).
    rewrite connection_attempts_app. lia.
Qed.

(** C3: a connected executor hands exactly one command line to the
    transport, and it is the one the specification describes; a disconnected
    one does the same after its implicit connect, or raises before sending
    anything.  Without [sudo] and without environment the command is sent
    as it is. *)
Theorem execute_sends_built_command (command : string) (sudo : bool)
    (env : option (list (string * string))) (w : world) :
  let run := execute command sudo env w in
  (∃ new, trace run.2 = trace w ++ new ∧
     (sent_commands new = [spec_command command sudo (default [] env)]
      ∨ sent_commands new = [] ∧ client (self w) = None ∧
        ∃ cause, run.1 = Raise (ExecutionError (ConnectionFailed cause)))) ∧
  spec_command command false [] = command.
Proof.
  split; [|done].
  rewrite <- build_command_spec.
  destruct (client (self w)) as [h|] eqn:Hc.
  - py_unfold. rewrite Hc. simpl. rewrite Hc. simpl.
    py_cases; rewrite <- ?app_assoc; (eexists; split; [reflexivity | by left]).
  - py_unfold. rewrite Hc. simpl. rewrite <- !app_assoc. simpl.
    py_cases; rewrite <- ?app_assoc; simpl;
      (eexists; split; [reflexivity | first [by left | right; eauto]]).
Qed.

(** C2, as amended: for a connected executor and a reply of the transport
    whose two streams are UTF-8 text, [execute] returns the trimmed streams
    and the status, whatever the status is; the log gets the two entries of
    a normal run, the second one at warning level when the status is not
    zero. *)
Theorem execute_reports_result (command : string) (sudo : bool)
    (env : option (list (string * string))) (w : world)
    (h : handle) (ch : channel) (st : Z) (out err : bytes) (so se : text) :
  client (self w) = Some h →
  exec_command
    (trace w ++ [Logged DEBUG (Executing (if sudo then "sudo " +:+ command else command))])
    h (build_command command sudo env) = inr ch →
  recv_exit_status ch = inr st →
  stdout_read ch = inr out →
  stderr_read ch = inr err →
  decode out = Some so →
  decode err = Some se →
  ∃ r w',
    execute command sudo env w = (Return r, w') ∧
    trimmed so (stdout r) ∧ trimmed se (stderr r) ∧ status r = st ∧
    self w' = self w ∧
    trace w' = trace w ++
      [Logged DEBUG (Executing (if sudo then "sudo " +:+ command else command));
       Called (ExecCommand h (build_command command sudo env));
       if bool_decide (st ≠ 0%Z) then Logged WARNING (ExitedWith st (stderr r))
       else Logged DEBUG ExecutedOk].
Proof.
  intros Hc Hch Hst Hout Herr Hso Hse.
  py_unfold. rewrite Hc. simpl. rewrite Hc. simpl.
  rewrite Hch. simpl. rewrite Hst. simpl. rewrite Hout. simpl. rewrite Hso. simpl.
  rewrite Herr. simpl. rewrite Hse. simpl.
  case_bool_decide; simpl; rewrite <- ?app_assoc; simpl;
    (eexists _, _; split; [reflexivity|]); simpl.
  all: split_and!;
    [apply strip_trimmed | apply strip_trimmed | done | done | by rewrite <- !app_assoc].
Qed.


End ExecutorFacts.

(** C10: [close] never raises and leaves the instance without client; with
    a client it closes that session, without one it changes nothing; a
    second [close] right after the first has no further effect. *)
Theorem close_idempotent (w : world) :
  (close w).1 = Return tt ∧
  client (self (close w).2) = None ∧
  match client (self w) with
  | Some h =>
      trace (close w).2
      = trace w ++ [Called (Close h); Logged INFO (Closed (hostname (self w)))]
  | None => (close w).2 = w
  end ∧
  (close;; close) w = close w.
Proof.
  py_unfold. destruct (client (self w)) eqn:Hc; simpl.
  - rewrite <- app_assoc. done.
  - rewrite Hc. done.
Qed.

(** *** Concrete runs *)

Lemma connect_failure_keeps_client_witness :
  let w := fresh (Executor.init "db1.example.com" "dbadmin" (Some "pw") None 22 30) in
  (connect (transport := refusing) w).1
    = Raise (ExecutionError (ConnectionFailed (SSHException "Unable to connect"))) ∧
  client (self (connect (transport := refusing) w).2) = Some 0%nat.
Proof.
  intros w. split; [reflexivity|].
  exact (proj1 (proj2 (connect_failure_keeps_client (transport := refusing) w _ eq_refl))).
Defined.

Lemma execute_reports_result_witness :
  let w := set_client (Some 7%nat) (fresh (Executor.init "web1" "admin" None None 22 30)) in
  ∃ r w', execute (transport := replying [Byte.x20; Byte.x6f; Byte.x6b; Byte.x0a] [] 1) "echo ok" false None w
          = (Return r, w') ∧ stdout r = [0x6f; 0x6b]%N ∧ status r = 1%Z.
Proof.
  intros w.
  destruct (execute_reports_result
              (transport := replying [Byte.x20; Byte.x6f; Byte.x6b; Byte.x0a] [] 1)
              "echo ok" false None w 7%nat _ 1%Z _ _ _ _
              eq_refl eq_refl eq_refl eq_refl eq_refl eq_refl eq_refl)
    as (r & w' & Hrun & _ & _ & Hst & _).
  exists r, w'. split; [exact Hrun|]. split; [|exact Hst].
  vm_compute in Hrun. injection Hrun as <- _. reflexivity.
Defined.

(** C2, as stated, fails: the transport returns a status and two streams,
    and [execute] raises, because the output is not UTF-8. *)
Lemma execute_raises_on_undecodable_output :
  let w := set_client (Some 7%nat) (fresh (Executor.init "web1" "admin" None None 22 30)) in
  let T := replying [Byte.xff] [] 0 in
  (∃ ch, exec_command (Transport := T) [Logged DEBUG (Executing "cat blob")] 7%nat "cat blob" = inr ch ∧
         recv_exit_status ch = inr 0%Z ∧ stdout_read ch = inr [Byte.xff] ∧
         stderr_read ch = inr []) ∧
  (execute (transport := T) "cat blob" false None w).1
    = Raise (ExecutionError (ExecutionFailed UnicodeDecodeError)).
Proof. split; [by eexists | reflexivity]. Qed.



(** * Further properties of the inventory *)

(** *** [add_host] *)

Lemma register_exact (name group : string) (s : state) :
  returns (register name group) s (λ _ s',
    lists s' = lists s ∧ hosts s' = hosts s ∧ log s' = log s ∧
    (name ∈ members s group ∧ groups s' = groups s
     ∨ (name ∉ members s group) ∧
       groups s' = <[group := members s group ++ [name]]> (groups s))).
Proof.
  unfold register. apply returns_modify. unfold members. simpl.
  split_and!; [done..|].
  destruct (groups s !! group) as [ms|] eqn:Hg.
  - rewrite (bool_decide_eq_true_2 (is_Some (Some ms))) by done. rewrite Hg. simpl.
    case_bool_decide as Hin; [by left | by right].
  - rewrite (bool_decide_eq_false_2 (is_Some None)) by (intros [? ?]; congruence).
    rewrite lookup_insert_eq. simpl. right. split; [apply not_elem_of_nil|].
    by rewrite insert_insert_eq.
Qed.

Lemma register_again (name group : string) (s : state) :
  name ∈ members s group → register name group s = (Return tt, s).
Proof.
  intros Hin. destruct (register_exact name group s)
    as ([] & s' & Hrun & Hl & Hh & Hlog & [[_ Hg]|[Hnot _]]); [|done].
  rewrite Hrun. f_equal. destruct s, s'. simpl in *. congruence.
Qed.

(** Any property of the group index that survives the append of a name that
    is not yet there survives [add_host]. *)
Lemma add_host_groups (name : string) (host : Host.t) (s : state)
    (R : gmap string (list string) → Prop) :
  R (groups s) →
  (∀ g G, R G → name ∉ default [] (G !! g) →
          R (<[g := default [] (G !! g) ++ [name]]> G)) →
  returns (add_host name host) s (λ _ s', R (groups s')).
Proof.
  intros HR Hstep. unfold add_host.
  apply returns_bind, returns_modify.
  apply returns_bind, returns_gets.
  apply returns_bind. eapply returns_mono.
  - apply (returns_for_each (register name) (λ _ s', R (groups s'))); [|done].
    intros _ g _ s1 _ HR1. eapply returns_mono; [apply register_exact|].
    intros [] s2 (_ & _ & _ & [[_ ->]|[Hnot ->]]); [done|]. by apply Hstep.
  - intros [] s1 HR1. unfold Inventory.logger. by apply returns_modify.
Qed.

(** X1 (add_host, idempotent registration): adding the same host under the
    same name a second time changes neither the hosts, nor the group index,
    nor the list objects; only one more debug line is logged. *)
Theorem add_host_twice (name : string) (host : Host.t) (s : state) :
  let s1 := (add_host name host s).2 in
  add_host name host s1
  = (Return tt, {| lists := lists s1; hosts := hosts s1; groups := groups s1;
                   log := log s1 ++ [(DEBUG, AddedHost name)] |}).
Proof.
  intros s1.
  destruct (add_host_spec name host s) as ([] & s1' & Hrun & Hl & Hh & Hin & _).
  assert (s1 = s1') as <- by (unfold s1; by rewrite Hrun).
  unfold add_host, mbind, py_bind, modify, gets, deref, Inventory.logger. simpl.
  assert (set_hosts (insert name host) s1 = s1) as ->.
  { unfold set_hosts. rewrite Hh, insert_insert_eq, <- Hh. by destruct s1. }
  rewrite Hl. fold (list_at s (Host.groups host)).
  assert (∀ gs, (∀ g, g ∈ gs → name ∈ members s1 g) →
            for_each gs (register name) s1 = (Return tt, s1)) as Hloop.
  { induction gs as [|g gs IH]; intros Hall; [done|]. simpl.
    unfold mbind, py_bind. rewrite register_again by (apply Hall; by left).
    apply IH. intros g' Hg'. apply Hall. by right. }
  rewrite Hloop by done. unfold modify. by rewrite Hl.
Qed.

(** X2 (add_host, then lookups): [add_host] always returns; afterwards
    [get_host] of that name gives the host just added, lookups of other
    names are as before, the name is a member of every group the host
    lists, and no name has left any group (also when a host of that name
    was there before and listed other groups). *)
Theorem add_host_then_lookup (name : string) (host : Host.t) (s : state) :
  let s1 := (add_host name host s).2 in
  (add_host name host s).1 = Return tt ∧
  get_host name s1 = (Return host, s1) ∧
  (∀ other, other ≠ name → (get_host other s1).1 = (get_host other s).1) ∧
  (∀ g, g ∈ list_at s (Host.groups host) →
        ∃ ms, groups s1 !! g = Some ms ∧ name ∈ ms) ∧
  (∀ g m, m ∈ members s g → m ∈ members s1 g).
Proof.
  intros s1.
  destruct (add_host_spec name host s) as ([] & s1' & Hrun & Hl & Hh & Hin & Hup & _).
  assert (s1 = s1') as <- by (unfold s1; by rewrite Hrun).
  split_and!.
  - by rewrite Hrun.
  - unfold get_host, mbind, py_bind, gets. by rewrite Hh, lookup_insert_eq.
  - intros other Hne. unfold get_host, mbind, py_bind, gets.
    rewrite Hh, lookup_insert_ne by done. by destruct (hosts s !! other).
  - intros g Hg. by apply members_lookup, Hin.
  - done.
Qed.

(** *** What [from_yaml] can raise *)

(** X3 (from_yaml, error wrapping): whatever the source is, [from_yaml]
    returns or raises [InventoryError] and nothing else; the error wraps
    the exception that stopped the load (for a file that cannot be read or
    parsed, the exception of [open] or of the parser), and the last line
    logged is the error-level report of that same exception. *)
Theorem from_yaml_raises_inventory_error (path : string) (source : exn + document) :
  let run := from_yaml path source in
  match run.1 with
  | Return _ => True
  | Raise e =>
      ∃ cause, e = InventoryError (FailedToLoad cause) ∧
               last (log run.2) = Some (ERROR, LoadFailed path cause) ∧
               ∀ x, source = inl x → cause = x
  | OutOfFuel => False
  end.
Proof.
  destruct source as [x|d].
  - simpl. exists x. split_and!; [done..|]. by intros ? [= <-].
  - simpl. rewrite from_yaml_parsed.
    pose proof (load_hosts_outcome (doc_hosts d)
                  (set_lists (λ _, doc_lists d) Inventory.init)) as Hhosts.
    destruct (for_each (doc_hosts d) load_host _) as [[[]|e|] s1]; simpl.
    + destruct (load_groups_returns (doc_groups d) s1) as ([] & s2 & -> & _). done.
    + exists e. split_and!; [done | by rewrite last_snoc | done].
    + done.
Qed.

(** *** Invariants of a loaded inventory *)

(** A property established entry by entry by the hosts pass, and a property
    it implies that [link] keeps and that does not depend on the log, hold
    for the inventory [from_yaml] returns. *)
Lemma from_yaml_invariant (d : document)
    (P : list (string * host_data) → state → Prop) (Q : state → Prop) :
  P [] (set_lists (λ _, doc_lists d) Inventory.init) →
  (∀ done_ entry todo s, doc_hosts d = done_ ++ entry :: todo → complete entry.2 →
     P done_ s → returns (load_host entry) s (λ _, P (done_ ++ [entry]))) →
  (∀ s, P (doc_hosts d) s → Q s) →
  (∀ g x s, Q s → returns (link g x) s (λ _, Q)) →
  (∀ s1 s2, lists s1 = lists s2 → hosts s1 = hosts s2 → groups s1 = groups s2 →
     Q s1 → Q s2) →
  ∀ path s, from_yaml path (inr d) = (Return tt, s) → Q s.
Proof.
  intros Hinit Hhost HPQ Hlink Hlog path s Hrun.
  assert (∀ entry, entry ∈ doc_hosts d → complete entry.2) as Hcomplete.
  { intros entry Hin. destruct (decide (complete entry.2)) as [|Hmiss]; [done|].
    destruct (load_hosts_raises (doc_hosts d) entry
                (set_lists (λ _, doc_lists d) Inventory.init) Hin Hmiss) as (key & s' & Hraise).
    rewrite from_yaml_parsed, Hraise in Hrun. discriminate. }
  rewrite from_yaml_parsed in Hrun.
  destruct (returns_for_each load_host P (doc_hosts d)) with
    (s := set_lists (λ _, doc_lists d) Inventory.init) as ([] & s1 & Hrun1 & HP1); [|done|].
  { intros done_ entry todo s0 Hsplit HP. apply (Hhost done_ entry todo); [done| |done].
    apply Hcomplete. rewrite Hsplit. apply elem_of_app. right. by left. }
  rewrite Hrun1 in Hrun.
  destruct (returns_for_each load_group (λ _, Q) (doc_groups d)) with (s := s1)
    as ([] & s2 & Hrun2 & HQ2); [|by apply HPQ|].
  { intros _ entry _ s0 _ HQ. eapply returns_mono.
    - apply (load_group_spec entry (λ _, Q)); [|done].
      intros r i x s3 _ HQ3 _. by apply Hlink.
    - intros [] s3. simpl. destruct (gd_hosts entry.2); [by intros (_ & ? & _) | by intros ->]. }
  rewrite Hrun2 in Hrun. injection Hrun as <-. by apply (Hlog s2).
Qed.

(** [from_dict] leaves the group index alone, so [load_host] changes it the
    way [add_host] does. *)
Lemma load_host_groups (entry : string * host_data) (s : state)
    (R : gmap string (list string) → Prop) :
  complete entry.2 →
  R (groups s) →
  (∀ g G, R G → entry.1 ∉ default [] (G !! g) →
          R (<[g := default [] (G !! g) ++ [entry.1]]> G)) →
  returns (load_host entry) s (λ _ s', R (groups s')).
Proof.
  intros [[hn Hhn] [un Hun]] HR Hstep. unfold load_host.
  apply returns_bind. eapply returns_mono; [by apply from_dict_spec|].
  intros h s1 (_ & Hg1 & _). apply add_host_groups; [by rewrite Hg1 | done].
Qed.

Lemma load_host_known (entry : string * host_data) (s : state) :
  complete entry.2 → members_known s →
  returns (load_host entry) s (λ _ s', members_known s').
Proof.
  intros Hc Hk. eapply returns_mono; [by apply load_host_spec|].
  intros [] s' (h & Hh & _ & _ & _ & _ & Hdown) g m Hm. rewrite Hh.
  destruct (decide (m = entry.1)) as [->|]; [by rewrite lookup_insert_eq|].
  rewrite lookup_insert_ne by done.
  destruct (Hdown g m Hm) as [Hold|[-> _]]; [by eapply Hk | done].
Qed.

Lemma no_empty_group_insert (G : gmap string (list string)) (g name : string) :
  no_empty_group G → no_empty_group (<[g := default [] (G !! g) ++ [name]]> G).
Proof.
  intros HG g' ms. destruct (decide (g' = g)) as [->|].
  - rewrite lookup_insert_eq. intros [= <-]. by destruct (default [] (G !! g)).
  - rewrite lookup_insert_ne by done. apply HG.
Qed.

Lemma from_yaml_no_empty_group (path : string) (d : document) (s : state) :
  from_yaml path (inr d) = (Return tt, s) →
  no_empty_group (groups s) ∧ members_known s.
Proof.
  apply (from_yaml_invariant d
           (λ _ s, no_empty_group (groups s) ∧ members_known s)
           (λ s, no_empty_group (groups s) ∧ members_known s)).
  - split.
    + intros g ms. simpl. by rewrite lookup_empty.
    + intros g m. unfold members. simpl. rewrite lookup_empty. by intros ?%elem_of_nil.
  - intros done_ entry todo s0 _ Hc [Hne Hk]. apply returns_and.
    + apply load_host_groups; [done..|]. intros g G HG _. by apply no_empty_group_insert.
    + by apply load_host_known.
  - done.
  - intros g x s0 [Hne Hk]. apply returns_and.
    + eapply returns_mono; [apply link_spec|].
      intros [] s1 [_ [(_ & -> & _)|(h & _ & _ & _ & ->)]]; [done|].
      by apply no_empty_group_insert.
    + eapply returns_mono; [by apply link_known|]. by intros [] s1 [? _].
  - intros s1 s2 Hl Hh Hg [Hne Hk]. split.
    + by rewrite <- Hg.
    + intros g m. unfold members. rewrite <- Hg, <- Hh. apply Hk.
Qed.

Lemma hosts_of_names_exact (hs : gmap string Host.t) (names : list string) (s : state) :
  (∀ m, m ∈ names → is_Some (hs !! m)) →
  ∃ l, hosts_of_names hs names s = (Return l, s) ∧ Some <$> l = (hs !!.) <$> names.
Proof.
  induction names as [|n names IH]; intros Hknown; simpl.
  - by exists [].
  - destruct (Hknown n) as [h Hh]; [by left|].
    destruct IH as (l & Hl & Hall). { intros m Hm. apply Hknown. by right. }
    exists (h :: l). unfold mbind, py_bind, subscript. rewrite Hh. simpl. rewrite Hl.
    split; [done|]. f_equal. exact Hall.
Qed.

(** X4 (from_yaml, then get_group_hosts): on an inventory that [from_yaml]
    returned, [get_group_hosts] of any group of the index returns: the
    result has one host per member, in the order of the member list, each
    the host registered under that name, and it is never empty (a group
    that no host joined is not in the index at all). *)
Theorem loaded_group_hosts (path : string) (d : document) (s : state)
    (g : string) (ms : list string) :
  from_yaml path (inr d) = (Return tt, s) →
  groups s !! g = Some ms →
  ∃ hs, get_group_hosts g s = (Return hs, s) ∧
        Some <$> hs = (hosts s !!.) <$> ms ∧ hs ≠ [].
Proof.
  intros Hrun Hg.
  destruct (from_yaml_no_empty_group path d s Hrun) as [Hne Hk].
  destruct (hosts_of_names_exact (hosts s) ms s) as (hs & Hhs & Hexact).
  { intros m Hm. apply (Hk g). unfold members. by rewrite Hg. }
  exists hs. split_and!.
  - unfold get_group_hosts, mbind, py_bind, gets. by rewrite Hg.
  - done.
  - intros ->. apply (Hne g ms Hg). by destruct ms.
Qed.

Lemma nodup_members_insert (G : gmap string (list string)) (g name : string) :
  (∀ g', NoDup (default [] (G !! g'))) →
  name ∉ default [] (G !! g) →
  ∀ g', NoDup (default [] (<[g := default [] (G !! g) ++ [name]]> G !! g')).
Proof.
  intros HG Hnot g'. destruct (decide (g' = g)) as [->|].
  - rewrite lookup_insert_eq. simpl. apply NoDup_app. split_and!; [done | | apply NoDup_singleton].
    intros x Hx ->%list_elem_of_singleton. done.
  - by rewrite lookup_insert_ne.
Qed.

Lemma load_host_registered (done_ todo : list (string * host_data))
    (entry : string * host_data) (s : state) :
  NoDup (done_ ++ entry :: todo).*1 →
  complete entry.2 →
  registered_soundly s ∧ (∀ n, is_Some (hosts s !! n) → n ∈ done_.*1) →
  returns (load_host entry) s (λ _ s',
    registered_soundly s' ∧ (∀ n, is_Some (hosts s' !! n) → n ∈ (done_ ++ [entry]).*1)).
Proof.
  intros Hnames Hc [(Hbound & Hbwd & Hnodup) Hdom].
  assert (hosts s !! entry.1 = None) as Hfresh.
  { apply eq_None_not_Some. intros Hsome%Hdom.
    rewrite fmap_app in Hnames. apply NoDup_app in Hnames as (_ & Hdisj & _).
    apply (Hdisj entry.1 Hsome). simpl. by left. }
  eapply returns_mono.
  - apply returns_and; [by apply load_host_spec|].
    apply (load_host_groups entry s (λ G, ∀ g, NoDup (default [] (G !! g)))); [done | apply Hnodup|].
    intros g G HG Hnot. by apply nodup_members_insert.
  - intros [] s' [(h & Hh & (extra & Hl & _) & Hkeep & Hnew & Hup & Hdown) Hnodup'].
    simpl in *.
    assert (Host.groups h < length (lists s'))%nat as Hnewbound.
    { destruct Hkeep as [[_ Hne]|[? _]]; [|lia].
      rewrite Hl, length_app. unfold list_at in Hne.
      destruct (lists s !! Host.groups h) eqn:Hlook; [|done].
      apply lookup_lt_Some in Hlook. lia. }
    split; [split_and!|].
    + intros n h'. rewrite Hh. destruct (decide (n = entry.1)) as [->|].
      * rewrite lookup_insert_eq. by intros [= <-].
      * rewrite lookup_insert_ne by done. intros Hn%Hbound. rewrite Hl, length_app. lia.
    + intros g m Hm. rewrite Hh. destruct (Hdown g m Hm) as [Hold|[-> Hg]].
      * destruct (Hbwd g m Hold) as (hm & Hhm & Hgm).
        assert (m ≠ entry.1) by congruence.
        exists hm. rewrite lookup_insert_ne by done. split; [done|].
        unfold list_at in *. rewrite Hl, lookup_app_l; [done|]. by eapply Hbound.
      * exists h. by rewrite lookup_insert_eq.
    + exact Hnodup'.
    + intros n. rewrite Hh, fmap_app, elem_of_app.
      destruct (decide (n = entry.1)) as [->|].
      * intros _. right. by left.
      * rewrite lookup_insert_ne by done. auto.
Qed.

Lemma link_registered (group_name host_name : string) (s : state) :
  registered_soundly s →
  returns (link group_name host_name) s (λ _ s', registered_soundly s').
Proof.
  intros (Hbound & Hbwd & Hnodup). eapply returns_mono; [apply link_spec|].
  intros [] s' [Hh [(Hl & Hg & _)|(h & Hhost & Hnot & Hl & Hg)]].
  - split_and!.
    + intros n h'. rewrite Hh, Hl. apply Hbound.
    + intros g m. unfold members, list_at. rewrite Hg, Hh, Hl. apply Hbwd.
    + intros g. unfold members. rewrite Hg. apply Hnodup.
  - pose proof (Hbound _ _ Hhost) as Hr.
    assert (∀ r, list_at s' r = if decide (Host.groups h = r)
                               then list_at s (Host.groups h) ++ [group_name]
                               else list_at s r) as Hat.
    { intros r. unfold list_at at 1. rewrite Hl. by apply list_at_alter. }
    assert (∀ r x, x ∈ list_at s r → x ∈ list_at s' r) as Hgrow.
    { intros r x Hx. rewrite Hat. case_decide as Heq; [|done].
      subst r. apply elem_of_app. by left. }
    assert (host_name ∉ members s group_name) as Hnew.
    { intros (h' & Hh' & Hin)%Hbwd. assert (h' = h) as -> by congruence. done. }
    split_and!.
    + intros n h'. rewrite Hh, Hl, length_alter. apply Hbound.
    + intros g m. unfold members at 1. rewrite Hg, Hh.
      destruct (decide (g = group_name)) as [->|].
      * rewrite lookup_insert_eq. simpl.
        intros [Hold| ->%list_elem_of_singleton]%elem_of_app.
        -- destruct (Hbwd _ _ Hold) as (hm & ? & ?). exists hm. split; [done|]. by apply Hgrow.
        -- exists h. split; [done|]. rewrite Hat, decide_True by done.
           apply elem_of_app. right. by apply list_elem_of_singleton.
      * rewrite lookup_insert_ne by done. intros Hold.
        destruct (Hbwd _ _ Hold) as (hm & ? & ?). exists hm. split; [done|]. by apply Hgrow.
    + unfold members at 1. rewrite Hg. by apply nodup_members_insert.
Qed.

(** X5 (from_yaml, the sound direction of membership): for a document with
    one entry per host name, in the inventory [from_yaml] returns every
    name in a group's member list is a host whose own list contains that
    group, and no name is listed twice.  This needs no assumption on shared
    lists. *)
Theorem loaded_members_are_sound (path : string) (d : document) (s : state)
    (g : string) (ms : list string) :
  NoDup (doc_hosts d).*1 →
  from_yaml path (inr d) = (Return tt, s) →
  groups s !! g = Some ms →
  NoDup ms ∧
  ∀ m, m ∈ ms → ∃ h, get_host m s = (Return h, s) ∧ g ∈ list_at s (Host.groups h).
Proof.
  intros Hnames Hrun Hg.
  assert (registered_soundly s) as (_ & Hbwd & Hnodup).
  { revert Hrun. apply (from_yaml_invariant d
      (λ done_ s, registered_soundly s ∧ (∀ n, is_Some (hosts s !! n) → n ∈ done_.*1))
      registered_soundly).
    - split; [split_and!|].
      + intros n h. simpl. by rewrite lookup_empty.
      + intros g' m. unfold members. simpl. rewrite lookup_empty. by intros ?%elem_of_nil.
      + intros g'. unfold members. simpl. rewrite lookup_empty. constructor.
      + intros n. simpl. rewrite lookup_empty. by intros [? ?].
    - intros done_ entry todo s0 Hsplit Hc HP. rewrite Hsplit in Hnames.
      by apply (load_host_registered done_ todo).
    - by intros s0 [? _].
    - intros g' x s0. apply link_registered.
    - intros s1 s2 Hl Hh Hgr (Hb & Hbw & Hn). split_and!.
      + intros n h. rewrite <- Hh, <- Hl. apply Hb.
      + intros g' m. unfold members, list_at. rewrite <- Hgr, <- Hh, <- Hl. apply Hbw.
      + intros g'. unfold members. rewrite <- Hgr. apply Hn. }
  apply lookup_members in Hg. split.
  - rewrite <- Hg. apply Hnodup.
  - intros m Hm. rewrite <- Hg in Hm. destruct (Hbwd g m Hm) as (h & Hh & Hin).
    exists h. split; [|done]. unfold get_host, mbind, py_bind, gets. by rewrite Hh.
Qed.

Lemma load_host_fields (entry : string * host_data) (s : state) :
  complete entry.2 →
  returns (load_host entry) s (λ _ s',
    ∃ h, hosts s' = <[entry.1 := h]> (hosts s) ∧ loaded_from entry.2 h).
Proof.
  intros [[hn Hhn] [un Hun]]. unfold load_host.
  apply returns_bind.
  assert (returns (from_dict entry.2) s (λ h s1, hosts s1 = hosts s ∧ loaded_from entry.2 h))
    as Hdict.
  { unfold from_dict, loaded_from. rewrite Hhn, Hun. simpl.
    apply returns_bind, returns_ret. apply returns_bind, returns_ret.
    unfold new_list at 1.
    apply returns_bind, returns_bind, returns_gets, returns_bind, returns_modify, returns_ret.
    apply returns_bind, returns_gets. simpl.
    case_bool_decide.
    - unfold new_list.
      apply returns_bind, returns_bind, returns_gets, returns_bind, returns_modify, returns_ret.
      by apply returns_ret.
    - by apply returns_bind, returns_ret, returns_ret. }
  eapply returns_mono; [exact Hdict|].
  intros h s1 [Hh1 Hfields]. eapply returns_mono; [apply add_host_spec|].
  intros [] s2 (_ & Hh2 & _). exists h. by rewrite Hh2, Hh1.
Qed.

(** X6 (from_yaml, the hosts it creates): for a document with one entry per
    host name, the inventory [from_yaml] returns has exactly the names of
    the entries as hosts, and [get_host] of an entry's name gives a host
    with the entry's hostname, username, password, key file and variables,
    port 22 when the entry has no port, and no variables when it has
    none. *)
Theorem loaded_hosts_match_entries (path : string) (d : document) (s : state) :
  NoDup (doc_hosts d).*1 →
  from_yaml path (inr d) = (Return tt, s) →
  (∀ name data, (name, data) ∈ doc_hosts d →
     ∃ h, get_host name s = (Return h, s) ∧ loaded_from data h) ∧
  (∀ name, is_Some (hosts s !! name) ↔ name ∈ (doc_hosts d).*1).
Proof.
  intros Hnames Hrun.
  set (P := λ (done_ : list (string * host_data)) (s : state),
    (∀ name data, (name, data) ∈ done_ →
       ∃ h, hosts s !! name = Some h ∧ loaded_from data h) ∧
    (∀ name, is_Some (hosts s !! name) → name ∈ done_.*1)).
  assert (P (doc_hosts d) s) as [Hall Hdom].
  { revert Hrun. apply (from_yaml_invariant d P (P (doc_hosts d))).
    - split.
      + intros ?? []%elem_of_nil.
      + intros n. simpl. rewrite lookup_empty. by intros [? ?].
    - intros done_ [n data] todo s0 Hsplit Hc [Hdone Hdom0]. rewrite Hsplit in Hnames.
      assert (n ∉ done_.*1) as Hfresh.
      { rewrite fmap_app in Hnames. apply NoDup_app in Hnames as (_ & Hdisj & _).
        intros Hin. apply (Hdisj n Hin). simpl. by left. }
      eapply returns_mono; [by apply load_host_fields|].
      intros [] s1 (h & Hh & Hfields). simpl in *. split.
      + intros name data' [Hin|[= -> ->]%list_elem_of_singleton]%elem_of_app.
        * destruct (Hdone name data' Hin) as (h' & ? & ?). exists h'. split; [|done].
          rewrite Hh, lookup_insert_ne; [done|]. intros <-. apply Hfresh.
          apply list_elem_of_fmap. by exists (n, data').
        * exists h. by rewrite Hh, lookup_insert_eq.
      + intros name. rewrite Hh, fmap_app, elem_of_app.
        destruct (decide (name = n)) as [->|].
        * intros _. right. by left.
        * rewrite lookup_insert_ne by done. auto.
    - done.
    - intros g x s0 HP. eapply returns_mono; [apply link_spec|].
      intros [] s1 [Hh _]. unfold P. by rewrite Hh.
    - intros s1 s2 _ Hh _. unfold P. by rewrite Hh. }
  split.
  - intros name data Hin. destruct (Hall name data Hin) as (h & Hh & Hfields).
    exists h. split; [|done]. unfold get_host, mbind, py_bind, gets. by rewrite Hh.
  - intros name. split; [apply Hdom|].
    intros ([n data] & -> & Hin)%list_elem_of_fmap.
    destruct (Hall n data Hin) as (h & Hh & _). by exists h.
Qed.

(** * Further properties of the executor *)

Section MoreExecutorFacts.
Context {transport : Transport}.

Ltac by_cases_on_client w :=
  let Hc := fresh "Hc" in
  py_unfold; unfold fails_cleanly;
  destruct (client (self w)) as [?|] eqn:Hc; simpl; rewrite ?Hc; simpl;
  py_cases; rewrite ?last_snoc; eauto.

(** X7 (connect, execute, upload_file, download_file; error wrapping):
    whatever the transport does, each of the four operations either returns
    or raises [ExecutionError], never another exception, and the last thing
    it did before raising was to log the failure at error level. *)
Theorem operations_fail_cleanly (w : world) :
  fails_cleanly (connect w) ∧
  (∀ command sudo env, fails_cleanly (execute command sudo env w)) ∧
  (∀ l r m, fails_cleanly (upload_file l r m w)) ∧
  (∀ r l, fails_cleanly (download_file r l w)).
Proof.
  split_and!.
  - py_unfold. unfold fails_cleanly. py_cases; rewrite ?last_snoc; eauto.
  - intros. by_cases_on_client w.
  - intros. by_cases_on_client w.
  - intros. by_cases_on_client w.
Qed.



Lemma execute_leaves_client (command : string) (sudo : bool)
    (env : option (list (string * string))) (w : world) :
  is_Some (client (self (execute command sudo env w).2)).
Proof.
  py_unfold. destruct (client (self w)) as [h|] eqn:Hc; simpl; rewrite ?Hc; simpl;
    py_cases; eauto.
Qed.

Lemma execute_from_no_client (command : string) (sudo : bool)
    (env : option (list (string * string))) (w : world) :
  client (self w) = None →
  ∃ new, trace (execute command sudo env w).2 = trace w ++ new ∧
         connection_attempts new = 1%nat.
Proof.
  intros Hc. py_unfold. rewrite Hc. simpl. rewrite <- !app_assoc. simpl.
  py_cases; rewrite <- ?app_assoc; simpl; (eexists; split; [reflexivity | done]).
Qed.

Lemma execute_attempts (command : string) (sudo : bool)
    (env : option (list (string * string))) (w : world) :
  connection_attempts (trace (execute command sudo env w).2)
  = (connection_attempts (trace w) + match client (self w) with Some _ => 0 | None => 1 end)%nat.
Proof.
  destruct (client (self w)) as [h|] eqn:Hc.
  - destruct (execute_when_client_set command sudo env w h Hc) as (new & -> & Hn & _).
    rewrite connection_attempts_app. lia.
  - destruct (execute_from_no_client command sudo env w Hc) as (new & -> & Hn).
    rewrite connection_attempts_app. lia.
Qed.

(** X9 (execute, upload_file, download_file; session reuse): the session
    opened by one [execute] serves the calls that follow.  Whatever the
    first call did, returned or raised, a second [execute], an upload or a
    download on the same instance asks for no further session: after both,
    the transport has been asked once if the instance had no client and not
    at all if it had one. *)
Theorem session_is_reused (command : string) (sudo : bool)
    (env : option (list (string * string))) (w : world) :
  let w1 := (execute command sudo env w).2 in
  let after := (connection_attempts (trace w) + match client (self w) with Some _ => 0 | None => 1 end)%nat in
  (∀ command' sudo' env',
     connection_attempts (trace (execute command' sudo' env' w1).2) = after) ∧
  (∀ l r m, connection_attempts (trace (upload_file l r m w1).2) = after) ∧
  (∀ r l, connection_attempts (trace (download_file r l w1).2) = after).
Proof.
  intros w1 after.
  destruct (execute_leaves_client command sudo env w) as [h Hh]. fold w1 in Hh.
  assert (connection_attempts (trace w1) = after) as Hw1 by apply execute_attempts.
  split_and!.
  - intros. rewrite execute_attempts, Hh, Hw1. lia.
  - intros l r m. destruct (upload_when_client_set l r m w1 h Hh) as (new & -> & Hn).
    rewrite connection_attempts_app. lia.
  - intros r l. destruct (download_when_client_set r l w1 h Hh) as (new & -> & Hn).
    rewrite connection_attempts_app. lia.
Qed.

(** X10 (close, then execute): after [close] the instance is back in its
    initial state as far as the session goes: the next [execute] opens a
    session again, exactly one, whatever the state before [close] was. *)
Theorem execute_after_close_reconnects (command : string) (sudo : bool)
    (env : option (list (string * string))) (w : world) :
  connection_attempts (trace ((close;; execute command sudo env) w).2)
  = (connection_attempts (trace w) + 1)%nat.
Proof.
  assert (∃ w1, close w = (Return tt, w1) ∧ client (self w1) = None ∧
                connection_attempts (trace w1) = connection_attempts (trace w))
    as (w1 & Hclose & Hc & Hn).
  { unfold close, mbind, py_bind, gets, modify, Executor.logger, mret, py_ret. simpl.
    destruct (client (self w)) eqn:Hcl; simpl.
    - eexists. split; [reflexivity|]. split; [done|]. simpl.
      rewrite <- app_assoc, connection_attempts_app. simpl. unfold connection_attempts at 2.
      simpl. lia.
    - by exists w. }
  unfold mbind at 1, py_bind at 1. rewrite Hclose.
  rewrite execute_attempts, Hc, Hn. done.
Qed.

(** X11 (connect on an instance that has a client): [connect] does not look
    at the client the instance holds.  It creates a new client object, makes
    it the instance's client, and closes nothing: a session that was open is
    abandoned, not closed. *)
Theorem connect_replaces_client (w : world) :
  ∃ new, trace (connect w).2 = trace w ++ Called (NewClient (length (trace w))) :: new ∧
         client (self (connect w).2) = Some (length (trace w)) ∧
         Forall (λ ev, is_close ev = false) new.
Proof.
  destruct (connect_trace w) as [Hc Hcases].
  destruct (fails _ _); destruct Hcases as [_ ->];
    (eexists; split; [reflexivity|]; split; [done|]);
    by repeat constructor.
Qed.

(** X12 (connect, the credentials it passes): the one [Connect] call
    carries hostname, username, port and timeout of the instance; the
    password is passed exactly when it is a non-empty string, and so is the
    key file: [None] and the empty string are both left out. *)
Theorem connect_keyword_arguments (w : world) :
  ∃ kwargs before after,
    trace (connect w).2 = trace w ++ before ++ Called (Connect (length (trace w)) kwargs) :: after ∧
    connection_attempts before = 0%nat ∧ connection_attempts after = 0%nat ∧
    kw_hostname kwargs = hostname (self w) ∧ kw_username kwargs = username (self w) ∧
    kw_port kwargs = port (self w) ∧ kw_timeout kwargs = timeout (self w) ∧
    (∀ p, kw_password kwargs = Some p ↔ password (self w) = Some p ∧ p ≠ "") ∧
    (∀ k, kw_key_filename kwargs = Some k ↔ key_filename (self w) = Some k ∧ k ≠ "").
Proof.
  destruct (connect_trace w) as [_ Hcases].
  assert (∀ o p, truthy o = Some p ↔ o = Some p ∧ p ≠ "") as Htruthy.
  { intros [s|] p; simpl.
    - case_bool_decide as Hs; split.
      + discriminate.
      + by intros [[= ->] ?].
      + by intros [= <-].
      + by intros [[= ->] _].
    - split; [discriminate | by intros [? _]]. }
  exists (connect_kwargs_of (self w)).
  destruct (fails _ _); destruct Hcases as [_ ->];
    (eexists [_; _; _], [_]; split; [reflexivity|]; split_and!; try done;
     intros; apply Htruthy).
Qed.

End MoreExecutorFacts.

(** * Properties of the logger *)

Section LoggerFacts.
Import Logger.
Variable str_upper : string → string.
Variable fs_fails : list fs_call → fs_call → option string.

(** [getLogger] changes no logger that is in the table and no other key. *)
Lemma getLogger_table (name : string) (s : state) :
  (getLogger name s).1 = logger_key name ∧
  fs (getLogger name s).2 = fs s ∧
  is_Some (loggers (getLogger name s).2 !! logger_key name) ∧
  (∀ k l, loggers s !! k = Some l → loggers (getLogger name s).2 !! k = Some l) ∧
  (∀ k, k ≠ logger_key name → loggers (getLogger name s).2 !! k = loggers s !! k).
Proof.
  unfold getLogger. destruct (loggers s !! logger_key name) as [l0|] eqn:Hname; simpl.
  - by rewrite Hname.
  - rewrite lookup_insert_eq. split_and!; [done..| |].
    + intros k l Hk. rewrite lookup_insert_ne; [done|]. congruence.
    + intros k Hk. by rewrite lookup_insert_ne.
Qed.

(** The logger table after the level is set and the console handler is the
    only handler. *)
Lemma console_configured (name : string) (lv : N) (s : state) :
  let key := logger_key name in
  let s1 := update key (λ l, {| lg_level := lv; lg_handlers := lg_handlers l |})
              (getLogger name s).2 in
  let s2 := update key (λ l, {| lg_level := lg_level l; lg_handlers := [] |}) s1 in
  let s3 := update key (λ l, {| lg_level := lg_level l;
                               lg_handlers := lg_handlers l ++ [console_handler] |}) s2 in
  loggers s3 = <[key := {| lg_level := lv; lg_handlers := [console_handler] |}]> (loggers s)
  ∧ fs s3 = fs s.
Proof.
  intros key s1 s2 s3.
  destruct (getLogger_table name s) as (_ & Hfs & [l0 Hl0] & _ & Hother). split.
  - apply map_eq. intros k. unfold s3, s2, s1, update. simpl.
    destruct (decide (k = key)) as [->|].
    + rewrite !lookup_alter_eq, lookup_insert_eq. unfold key. by rewrite Hl0.
    + rewrite !lookup_alter_ne, lookup_insert_ne by done. by apply Hother.
  - unfold s3, s2, s1, update. simpl. exact Hfs.
Qed.

(** [get_logger] works on the logger kept under the key of its name. *)
Lemma get_logger_unfold (name level : string) (log_file : option path) (s : state) :
  get_logger str_upper fs_fails name level log_file s
  = let key := logger_key name in
    let s := (getLogger name s).2 in
    match level_of_name (str_upper level) with
    | None => (Some (ValueError (str_upper level)), s)
    | Some lv =>
        let s := update key (λ l, {| lg_level := lv; lg_handlers := lg_handlers l |}) s in
        let s := update key (λ l, {| lg_level := lg_level l; lg_handlers := [] |}) s in
        let s := update key (λ l, {| lg_level := lg_level l;
                                    lg_handlers := lg_handlers l ++ [console_handler] |}) s in
        match log_file with
        | None => (None, s)
        | Some p =>
            match fs_do fs_fails (Mkdir (path_parent p)) s with
            | (Some x, s) => (Some (OSError x), s)
            | (None, s) =>
                match fs_do fs_fails (OpenAppend (path_str p)) s with
                | (Some x, s) => (Some (OSError x), s)
                | (None, s) =>
                    (None, update key (λ l, {| lg_level := lg_level l;
                             lg_handlers := lg_handlers l ++ [file_handler (path_str p)] |}) s)
                end
            end
        end
    end.
Proof.
  unfold get_logger. destruct (getLogger_table name s) as (Hkey & _).
  destruct (getLogger name s) as [k s']. simpl in Hkey. by subst k.
Qed.

Lemma get_logger_returned (name level : string) (log_file : option path) (s : state) :
  (get_logger str_upper fs_fails name level log_file s).1 = None →
  ∃ lv, level_of_name (str_upper level) = Some lv ∧
    loggers (get_logger str_upper fs_fails name level log_file s).2
    = <[logger_key name := {| lg_level := lv;
                   lg_handlers := console_handler ::
                     match log_file with
                     | Some p => [file_handler (path_str p)]
                     | None => []
                     end |}]> (loggers s).
Proof.
  rewrite get_logger_unfold. simpl.
  destruct (level_of_name (str_upper level)) as [lv|]; [|done].
  intros Hrun. exists lv. split; [done|].
  destruct (console_configured name lv s) as [Hloggers Hfs].
  destruct log_file as [p|]; [|done]. unfold fs_do in *.
  destruct (fs_fails _ (Mkdir _)); [done|]. simpl in *.
  destruct (fs_fails _ (OpenAppend _)); [done|]. simpl in *.
  rewrite Hloggers. apply map_eq. intros k.
  destruct (decide (k = logger_key name)) as [->|].
  - by rewrite lookup_alter_eq, !lookup_insert_eq.
  - by rewrite lookup_alter_ne, !lookup_insert_ne.
Qed.

(** X13 (get_logger, handlers are replaced): when [get_logger] returns, the
    logger it was asked for has the level asked for and, whatever handlers
    it had before, exactly the console handler followed by the file handler
    if a log file was given; every other logger is as it was, where the
    empty name and [root] are two names of one logger, the root logger.  So
    a second call with the same arguments that returns leaves the table of
    loggers as the first one left it: handlers do not pile up. *)
Theorem get_logger_replaces_handlers (name level : string) (log_file : option path)
    (s : state) :
  let run := get_logger str_upper fs_fails name level log_file s in
  let again := get_logger str_upper fs_fails name level log_file run.2 in
  run.1 = None →
  (∃ lv l, level_of_name (str_upper level) = Some lv ∧
           loggers run.2 !! logger_key name = Some l ∧ lg_level l = lv ∧
           lg_handlers l = console_handler ::
             match log_file with
             | Some p => [file_handler (path_str p)]
             | None => []
             end) ∧
  (∀ other, logger_key other ≠ logger_key name →
     loggers run.2 !! logger_key other = loggers s !! logger_key other) ∧
  (again.1 = None → loggers again.2 = loggers run.2).
Proof.
  intros run again Hrun.
  destruct (get_logger_returned name level log_file s Hrun) as (lv & Hlv & Hloggers).
  fold run in Hloggers. split_and!.
  - eexists lv, _. split; [done|]. rewrite Hloggers, lookup_insert_eq. done.
  - intros other Hne. by rewrite Hloggers, lookup_insert_ne.
  - intros Hagain.
    destruct (get_logger_returned name level log_file run.2 Hagain) as (lv' & Hlv' & Hloggers').
    fold again in Hloggers'. rewrite Hloggers', Hloggers, insert_insert_eq. congruence.
Qed.

(** X14 (get_logger, unknown level): a level name whose upper-cased form,
    as [str.upper] gives it, is none of the names of [logging] makes
    [get_logger] raise [ValueError] before it resets anything: no
    file-system call is made, and every logger that existed keeps its level
    and its handlers, the one asked for included. *)
Theorem get_logger_unknown_level (name level : string) (log_file : option path) (s : state) :
  level_of_name (str_upper level) = None →
  let run := get_logger str_upper fs_fails name level log_file s in
  run.1 = Some (ValueError (str_upper level)) ∧
  fs run.2 = fs s ∧
  ∀ n l, loggers s !! n = Some l → loggers run.2 !! n = Some l.
Proof.
  intros Hlevel. rewrite get_logger_unfold. simpl. rewrite Hlevel. simpl.
  destruct (getLogger_table name s) as (_ & Hfs & _ & Hkept & _). done.
Qed.


End LoggerFacts.

(** * Properties of the example program *)

Section BasicUsageFacts.
Context {transport : Transport}.
Import BasicUsage.

Lemma requested_sessions_app (tr1 tr2 : list event) :
  requested_sessions (tr1 ++ tr2) = requested_sessions tr1 ++ requested_sessions tr2.
Proof. apply omap_app. Qed.

Lemma closed_sessions_app (tr1 tr2 : list event) :
  closed_sessions (tr1 ++ tr2) = closed_sessions tr1 ++ closed_sessions tr2.
Proof. apply omap_app. Qed.

Lemma visit_round (host_name : string) (host : Host.t) (s : state) :
  ∃ new kwargs,
    events (visit host_name host s) = events s ++ new ∧
    requested_sessions new = [(length (events s), kwargs)] ∧
    closed_sessions new = [length (events s)] ∧
    kw_port kwargs = 22%Z ∧ kw_timeout kwargs = 30%Z.
Proof.
  unfold visit. py_unfold. rewrite <- ?app_assoc. simpl.
  py_cases; rewrite <- ?app_assoc; simpl;
    (eexists _, _; split; [reflexivity|]; by split_and!).
Qed.

(** X16 (main, one round of the loop): for every host and whatever the
    transport does, the round asks for exactly one session, on port 22
    with timeout 30 whatever port the inventory gives the host, with the
    host's hostname, username and non-empty credentials; it closes the
    client it created, and logs exactly one line after its "Connecting"
    line. *)
Theorem visit_opens_and_closes_one_session (host_name : string) (host : Host.t)
    (s : state) :
  let s' := visit host_name host s in
  let h := length (events s) in
  ∃ new kwargs,
    events s' = events s ++ new ∧
    requested_sessions new = [(h, kwargs)] ∧
    closed_sessions new = [h] ∧
    kw_port kwargs = 22%Z ∧ kw_timeout kwargs = 30%Z ∧
    kw_hostname kwargs = Host.hostname host ∧
    kw_username kwargs = Host.username host ∧
    ∃ line, reports s' = reports s ++ [(INFO, ConnectingTo host_name); line].
Proof.
  unfold visit. py_unfold. rewrite <- ?app_assoc. simpl.
  py_cases; rewrite <- ?app_assoc; simpl;
    (eexists _, _; split; [reflexivity|]; split_and!; try done; by eexists).
Qed.

(** X17 (main, the whole loop): over any sequence of hosts, the loop asks
    for as many sessions as there are hosts and closes as many; every
    session that was asked for has been closed when the loop ends, in the
    same order, and each request goes to port 22. *)
Theorem visit_all_closes_every_session (hosts : list (string * Host.t)) (s : state) :
  let s' := visit_all hosts s in
  ∃ new,
    events s' = events s ++ new ∧
    length (requested_sessions new) = length hosts ∧
    closed_sessions new = (requested_sessions new).*1 ∧
    Forall (λ request, kw_port request.2 = 22%Z) (requested_sessions new).
Proof.
  revert s. induction hosts as [|[name host] hosts IH]; intros s; simpl.
  - exists []. by rewrite app_nil_r.
  - destruct (visit_round name host s) as (new1 & kw & Hev1 & Hreq1 & Hcl1 & Hport & _).
    destruct (IH (visit name host s)) as (new2 & Hev2 & Hlen2 & Hcl2 & Hports2).
    exists (new1 ++ new2). split_and!.
    + unfold visit_all in *. simpl. by rewrite Hev2, Hev1, <- app_assoc.
    + rewrite requested_sessions_app, length_app, Hreq1, Hlen2. done.
    + rewrite requested_sessions_app, closed_sessions_app, fmap_app, Hreq1, Hcl1, Hcl2. done.
    + rewrite requested_sessions_app, Hreq1. apply Forall_app. split; [|done].
      by constructor.
Qed.
End BasicUsageFacts.

(** * Concrete runs of the further properties *)

Lemma loaded_group_hosts_witness :
  let s := (from_yaml "inventory.yaml" (inr example_inventory)).2 in
  ∃ hs, get_group_hosts "production" s = (Return hs, s) ∧
        Some <$> hs = (hosts s !!.) <$> ["web1"; "db1"] ∧ hs ≠ [].
Proof.
  intros s.
  apply (loaded_group_hosts "inventory.yaml" example_inventory s "production" ["web1"; "db1"]).
  - subst s. vm_compute. reflexivity.
  - subst s. vm_compute. reflexivity.
Defined.

Lemma loaded_members_are_sound_witness :
  let s := (from_yaml "inventory.yaml" (inr aliased_inventory)).2 in
  NoDup ["web1"] ∧
  ∀ m, m ∈ ["web1"] →
       ∃ h, get_host m s = (Return h, s) ∧ "webservers" ∈ list_at s (Host.groups h).
Proof.
  intros s.
  apply (loaded_members_are_sound "inventory.yaml" aliased_inventory s "webservers" ["web1"]).
  - apply (bool_decide_unpack _). vm_compute. exact I.
  - subst s. vm_compute. reflexivity.
  - subst s. vm_compute. reflexivity.
Defined.

Lemma loaded_hosts_match_entries_witness :
  let s := (from_yaml "inventory.yaml" (inr example_inventory)).2 in
  (∀ name data, (name, data) ∈ doc_hosts example_inventory →
     ∃ h, get_host name s = (Return h, s) ∧ loaded_from data h) ∧
  (∀ name, is_Some (hosts s !! name) ↔ name ∈ (doc_hosts example_inventory).*1).
Proof.
  intros s.
  apply (loaded_hosts_match_entries "inventory.yaml" example_inventory s).
  - apply (bool_decide_unpack _). vm_compute. exact I.
  - subst s. vm_compute. reflexivity.
Defined.


Lemma get_logger_replaces_handlers_witness :
  ∃ l, Logger.loggers
         (Logger.get_logger ascii_upper (λ _ _, None) "catalyst" "debug"
            (Some catalyst_log) no_loggers).2
       !! "catalyst" = Some l ∧
       Logger.lg_level l = 10%N ∧ length (Logger.lg_handlers l) = 2%nat.
Proof.
  destruct (get_logger_replaces_handlers ascii_upper (λ _ _, None) "catalyst" "debug"
              (Some catalyst_log) no_loggers eq_refl)
    as ((lv & l & Hlv & Hl & Hlevel & Hhandlers) & _).
  exists l. split; [exact Hl|]. split.
  - vm_compute in Hlv. congruence.
  - by rewrite Hhandlers.
Defined.

Lemma get_logger_unknown_level_witness :
  (Logger.get_logger ascii_upper (λ _ _, None) "catalyst" "verbose" None no_loggers).1
  = Some (Logger.ValueError "VERBOSE").
Proof.
  exact (proj1 (get_logger_unknown_level ascii_upper (λ _ _, None) "catalyst" "verbose" None
                  no_loggers eq_refl)).
Defined.

